(** * The seeding script's [RateLimiter] (src/seed-database.ts, lines 45-103)

    A shallow embedding of the class as a reactive machine.  JavaScript runs
    the class on one thread: code between two [await]s is atomic, and the only
    things that can happen while an activation is suspended are that time
    passes, that somebody calls [execute], that a timer runs, that the promise
    of the job settles, or that the microtask continuing the drain loop runs.
    Those are the [event]s; [step] is what the class does on each of them. *)

From Stdlib Require Import ZArith List String Ascii Bool Arith Lia.
Import ListNotations.
Open Scope Z_scope.

(** ** JavaScript values the limiter looks at *)

Module Js.

(** [String.prototype.includes]: does [needle] occur somewhere in [s]. *)
Fixpoint includes (needle s : string) : bool :=
  match s with
  | EmptyString => prefix needle EmptyString
  | String _ rest => prefix needle s || includes needle rest
  end.

(** What [error.message] can evaluate to. *)
Inductive message : Type :=
| MsgAbsent                      (* undefined or null: no such property *)
| MsgString (text : string)      (* the usual case: an Error's message *)
| MsgOpaque                      (* a number, boolean or object: its
                                    [includes] is not a function *)
| MsgSearchable (found : bool).  (* a non-string that has an [includes]
                                    method, such as an array; [found] is
                                    whether the call returns a truthy value *)

(** What a [catch] clause can bind.  [ident] tells thrown values apart. *)
Inductive thrown : Type :=
| Nullish                                  (* throw null, throw undefined,
                                              or a promise rejected with
                                              no reason *)
| Value (ident : nat) (msg : message)      (* any other value *)
| EngineTypeError.                         (* the TypeError the engine raises
                                              on a bad property access or a
                                              call of a non-function *)

(** An expression either yields a value or throws. *)
Inductive completion (A : Type) : Type :=
| Normal (a : A)
| Abrupt (e : thrown).
Arguments Normal {A} a.
Arguments Abrupt {A} e.

(** How the promise returned by the job's callable settles. *)
Inductive outcome : Type :=
| Fulfilled (result : nat)
| Threw (error : thrown).

End Js.
Import Js.

(** ** The class *)

(** A queued task is the closure pushed at line 56.  It closes over the
    caller's [fn], [resolve] and [reject]; the model names it by the number of
    the [execute] call that created it (0 for the first call). *)
Definition job := nat.

(** Fields of the class, lines 46-52. *)
Record RateLimiter : Type := mkRateLimiter {
  queue : list job;
  processing : bool;
  lastCallTime : Z;
  retryCount : Z;
  maxRetries : Z;
  rateLimit : Z
}.

(** [new RateLimiter(rateLimit)]: the field initialisers and the constructor,
    whose only parameter is [rateLimit]. *)
Definition new_RateLimiter (rateLimit : Z) : RateLimiter :=
  {| queue := [];
     processing := false;
     lastCallTime := 0;
     retryCount := 0;
     maxRetries := 3;
     rateLimit := rateLimit |}.

(** Where an activation of [processQueue] is suspended. *)
Inductive loop : Type :=
| AwaitInterval (j : job) (due : Z)  (* line 62, inside the task of [j]: the
                                        timer runs at clock [due] or later *)
| AwaitJob (j : job)                 (* line 80: [fn()] has been called *)
| AwaitBackoff (j : job) (due : Z)   (* line 86 *)
| AwaitTask.                         (* line 99: the task has finished and the
                                        loop waits to be continued *)

(** What an observer sees, in the order it happens. *)
Inductive entry : Type :=
| Started (j : job) (at_ : Z)        (* line 65: lastCallTime := Date.now() *)
| Invoked (j : job) (at_ : Z)        (* line 80: fn() is called *)
| Backoff (j : job) (ms : Z)         (* line 86: setTimeout(_, backoffTime) *)
| Resolved (j : job) (result : nat)  (* line 68 *)
| Rejected (j : job) (error : thrown). (* line 70 *)

(** The limiter together with its surroundings: the clock [Date.now()] reads,
    the suspended activations of [processQueue], how many times [execute] has
    been called, and the observations so far. *)
Record world : Type := mkWorld {
  self : RateLimiter;
  now : Z;
  loops : list loop;
  submitted : nat;
  trace : list entry
}.

Definition init (rateLimit clock : Z) : world :=
  {| self := new_RateLimiter rateLimit;
     now := clock;
     loops := [];
     submitted := 0;
     trace := [] |}.

(** *** Field updates *)

Definition with_self (f : RateLimiter -> RateLimiter) (w : world) : world :=
  {| self := f (self w); now := now w; loops := loops w;
     submitted := submitted w; trace := trace w |}.

Definition set_queue (q : list job) : world -> world :=
  with_self (fun r =>
    {| queue := q; processing := processing r; lastCallTime := lastCallTime r;
       retryCount := retryCount r; maxRetries := maxRetries r;
       rateLimit := rateLimit r |}).

Definition set_processing (b : bool) : world -> world :=
  with_self (fun r =>
    {| queue := queue r; processing := b; lastCallTime := lastCallTime r;
       retryCount := retryCount r; maxRetries := maxRetries r;
       rateLimit := rateLimit r |}).

Definition set_lastCallTime (t : Z) : world -> world :=
  with_self (fun r =>
    {| queue := queue r; processing := processing r; lastCallTime := t;
       retryCount := retryCount r; maxRetries := maxRetries r;
       rateLimit := rateLimit r |}).

Definition set_retryCount (n : Z) : world -> world :=
  with_self (fun r =>
    {| queue := queue r; processing := processing r;
       lastCallTime := lastCallTime r; retryCount := n;
       maxRetries := maxRetries r; rateLimit := rateLimit r |}).

Definition set_now (t : Z) (w : world) : world :=
  {| self := self w; now := t; loops := loops w;
     submitted := submitted w; trace := trace w |}.

Definition set_loops (ls : list loop) (w : world) : world :=
  {| self := self w; now := now w; loops := ls;
     submitted := submitted w; trace := trace w |}.

Definition set_submitted (n : nat) (w : world) : world :=
  {| self := self w; now := now w; loops := loops w;
     submitted := n; trace := trace w |}.

Definition observe (e : entry) (w : world) : world :=
  {| self := self w; now := now w; loops := loops w;
     submitted := submitted w; trace := trace w ++ [e] |}.

(** *** The methods, one definition per atomic stretch of code *)

(** Line 82, left operand: [error.message?.includes('429')].  Reading
    [message] off null or undefined throws; [?.] only guards against a
    missing [message], so a [message] whose [includes] is not a function
    throws as well. *)
Definition is_rate_limited (error : thrown) : completion bool :=
  match error with
  | Nullish => Abrupt EngineTypeError
  | Value _ MsgAbsent => Normal false
  | Value _ (MsgString text) => Normal (includes "429"%string text)
  | Value _ MsgOpaque => Abrupt EngineTypeError
  | Value _ (MsgSearchable found) => Normal found
  | EngineTypeError => Normal false
  end.

(** Line 80: [fn()] is called and [retryWithBackoff] suspends on its promise. *)
Definition invoke (j : job) (w : world) : world * option loop :=
  (observe (Invoked j (now w)) w, Some (AwaitJob j)).

(** Lines 65-66: the task records the start and enters [retryWithBackoff]. *)
Definition task_start (j : job) (w : world) : world * option loop :=
  invoke j (observe (Started j (now w)) (set_lastCallTime (now w) w)).

(** Lines 58-63: the task starts at once, or sets a timer for the rest of the
    interval. *)
Definition task_begin (j : job) (w : world) : world * option loop :=
  let now_ := now w in
  let timeSinceLastCall := now_ - lastCallTime (self w) in
  if timeSinceLastCall <? rateLimit (self w) then
    let waitTime := rateLimit (self w) - timeSinceLastCall in
    (w, Some (AwaitInterval j (now_ + waitTime)))
  else task_start j w.

(** Lines 97-101: the loop test, the [shift], and the call of the task; or
    the end of the activation. *)
Definition loop_head (w : world) : world * option loop :=
  match queue (self w) with
  | [] => (set_processing false w, None)
  | task :: rest => task_begin task (set_queue rest w)
  end.

(** Lines 80-90 and 67-70: the promise of [fn()] settles.  The recursive call
    at line 87 is returned as it is, so the outer activations of
    [retryWithBackoff] add nothing: a result reaches line 67 and an error
    reaches line 70 unchanged. *)
Definition settle (j : job) (o : outcome) (w : world) : world * option loop :=
  match o with
  | Fulfilled result =>
      (observe (Resolved j result) (set_retryCount 0 w), Some AwaitTask)
  | Threw error =>
      match is_rate_limited error with
      | Abrupt raised => (observe (Rejected j raised) w, Some AwaitTask)
      | Normal hit =>
          if hit && (retryCount (self w) <? maxRetries (self w)) then
            let w1 := set_retryCount (retryCount (self w) + 1) w in
            let backoffTime := 2 ^ retryCount (self w1) * 1000 in
            (observe (Backoff j backoffTime) w1,
             Some (AwaitBackoff j (now w + backoffTime)))
          else (observe (Rejected j error) w, Some AwaitTask)
      end
  end.

(** Put activation [i] back ([Some]) or drop it ([None]). *)
Fixpoint put (i : nat) (l : option loop) (ls : list loop) : list loop :=
  match ls, i with
  | [], _ => []
  | _ :: rest, O => match l with Some l' => l' :: rest | None => rest end
  | x :: rest, S i' => x :: put i' l rest
  end.

(** Continue activation [i] with [k] if [k] applies to where it is suspended;
    an event that does not apply cannot happen and changes nothing. *)
Definition resume (i : nat)
    (k : loop -> world -> option (world * option loop)) (w : world) : world :=
  match nth_error (loops w) i with
  | None => w
  | Some l =>
      match k l w with
      | None => w
      | Some (w', l') => set_loops (put i l' (loops w')) w'
      end
  end.

(** Lines 93-96 and on: [processQueue] returns at once, or becomes a new
    activation that runs up to its first [await]. *)
Definition processQueue (w : world) : world :=
  if processing (self w) || (List.length (queue (self w)) =? 0)%nat then w
  else
    let (w', l) := loop_head (set_processing true w) in
    match l with
    | Some l' => set_loops (loops w' ++ [l']) w'
    | None => w'
    end.

(** Lines 54-76: [execute(fn)] pushes a task and calls [processQueue]. *)
Definition execute (w : world) : world :=
  let j := submitted w in
  processQueue
    (set_queue (queue (self w) ++ [j]) (set_submitted (S (submitted w)) w)).

(** ** Events and runs *)

Inductive event : Type :=
| Elapse (ms : N)                 (* the clock advances *)
| Execute                         (* a caller calls [execute] *)
| Timeout (i : nat)               (* the timer activation [i] waits for runs;
                                     a timer never runs before it is due *)
| Settle (i : nat) (o : outcome)  (* the promise of [fn()] settles *)
| Resume (i : nat).               (* the loop continues after [await task()] *)

Definition on_timeout (l : loop) (w : world) : option (world * option loop) :=
  match l with
  | AwaitInterval j due => if due <=? now w then Some (task_start j w) else None
  | AwaitBackoff j due => if due <=? now w then Some (invoke j w) else None
  | _ => None
  end.

Definition on_settle (o : outcome) (l : loop) (w : world)
    : option (world * option loop) :=
  match l with
  | AwaitJob j => Some (settle j o w)
  | _ => None
  end.

Definition on_resume (l : loop) (w : world) : option (world * option loop) :=
  match l with
  | AwaitTask => Some (loop_head w)
  | _ => None
  end.

Definition step (ev : event) (w : world) : world :=
  match ev with
  | Elapse ms => set_now (now w + Z.of_N ms) w
  | Execute => execute w
  | Timeout i => resume i on_timeout w
  | Settle i o => resume i (on_settle o) w
  | Resume i => resume i on_resume w
  end.

Definition run (evs : list event) (w : world) : world :=
  fold_left (fun w ev => step ev w) evs w.

(** ** Reading a trace *)

Definition started_id (e : entry) : list job :=
  match e with Started j _ => [j] | _ => [] end.

Definition settled_id (e : entry) : list job :=
  match e with Resolved j _ | Rejected j _ => [j] | _ => [] end.

Definition invoked_id (e : entry) : list job :=
  match e with Invoked j _ => [j] | _ => [] end.

Definition backoff_of (j : job) (e : entry) : list Z :=
  match e with
  | Backoff j' ms => if Nat.eqb j j' then [ms] else []
  | _ => []
  end.

(** Jobs in the order they started, in the order they settled, and the
    invocations of callables in order. *)
Definition started_ids (t : list entry) : list job := flat_map started_id t.
Definition settled_ids (t : list entry) : list job := flat_map settled_id t.
Definition invoked_ids (t : list entry) : list job := flat_map invoked_id t.

(** How often the callable of [j] has been called. *)
Definition attempts_of (j : job) (t : list entry) : nat :=
  count_occ Nat.eq_dec (invoked_ids t) j.

(** The backoff delays requested for [j], in order. *)
Definition backoffs_of (j : job) (t : list entry) : list Z :=
  flat_map (backoff_of j) t.

(** The job an activation holds back for the interval, and the job whose
    callable is under way (between its first call and its settling). *)
Definition waiting_of (l : loop) : list job :=
  match l with AwaitInterval j _ => [j] | _ => [] end.

Definition inflight_of (l : loop) : list job :=
  match l with AwaitJob j | AwaitBackoff j _ => [j] | _ => [] end.

(** The time of the latest start in a trace, [dflt] if there is none. *)
Definition last_start (dflt : Z) (t : list entry) : Z :=
  fold_left (fun acc e => match e with Started _ at_ => at_ | _ => acc end)
            t dflt.

(** ** What holds in every state the limiter can reach

    [Good rl w ls] is stated for a world [w] and the activations [ls] it is
    about to have, so that it can be used in the middle of a step. *)
Record Good (rl : Z) (w : world) (ls : list loop) : Prop := mkGood {
  good_single : (List.length ls <= 1)%nat;
  good_flag : processing (self w) = true <-> ls <> [];
  good_idle : ls = [] -> queue (self w) = [];
  good_order :
    started_ids (trace w) ++ flat_map waiting_of ls ++ queue (self w)
    = seq 0 (submitted w);
  good_flight :
    settled_ids (trace w) ++ flat_map inflight_of ls = started_ids (trace w);
  good_invoked : forall j, In j (invoked_ids (trace w)) ->
                           In j (started_ids (trace w));
  good_last : lastCallTime (self w) = last_start 0 (trace w);
  good_latest : forall j t, In (Started j t) (trace w) ->
                            t <= lastCallTime (self w);
  good_past : forall j t, In (Started j t) (trace w) -> t <= now w;
  good_due : forall j due, In (AwaitInterval j due) ls ->
                           lastCallTime (self w) + rl <= due;
  good_spaced : forall j1 t1 j2 t2,
      In (Started j1 t1) (trace w) -> In (Started j2 t2) (trace w) ->
      (j1 < j2)%nat -> t1 + rl <= t2;
  good_budget : 0 <= retryCount (self w) <= maxRetries (self w);
  good_max : maxRetries (self w) = 3;
  good_rate : rateLimit (self w) = rl
}.

Definition Inv (rl : Z) (w : world) : Prop := Good rl w (loops w).

(** The activations an optional continuation stands for. *)
Definition as_list (l : option loop) : list loop :=
  match l with Some x => [x] | None => [] end.

(** ** Letting the limiter run

    A [schedule] fixes what the surroundings do while nobody calls
    [execute]: how the [n]-th call (counted from 0) of the callable of a job
    ends, and how much later than the earliest possible moment the next thing
    happens.  [drive] delivers what the suspended activation waits for, one
    suspension at a time. *)
Record schedule : Type := mkSchedule {
  ends : job -> nat -> outcome;
  lag : nat -> N
}.

Definition next (sch : schedule) (w : world) : list event :=
  let late := lag sch (List.length (trace w)) in
  match loops w with
  | [] => []
  | AwaitInterval _ due :: _ => [Elapse (Z.to_N (due - now w) + late); Timeout 0]
  | AwaitBackoff _ due :: _ => [Elapse (Z.to_N (due - now w) + late); Timeout 0]
  | AwaitJob j :: _ =>
      [Elapse late; Settle 0 (ends sch j (pred (attempts_of j (trace w))))]
  | AwaitTask :: _ => [Resume 0]
  end.

Fixpoint drive (fuel : nat) (sch : schedule) (w : world) : world :=
  match fuel with
  | O => w
  | S fuel' => drive fuel' sch (run (next sch w) w)
  end.

(** Retries the counter still allows. *)
Definition budget_left (r : RateLimiter) : nat :=
  Z.to_nat (maxRetries r - retryCount r).


(** Either a step leaves [lastCallTime] and the started jobs as they are, or
    it starts one job that had never started or been called before, writes
    the clock to [lastCallTime], and calls the job there and then. *)
Definition keeps_start (w w' : world) : Prop :=
  lastCallTime (self w') = lastCallTime (self w) /\
  started_ids (trace w') = started_ids (trace w).

Definition starts_job (w w' : world) : Prop :=
  exists j,
    trace w' = trace w ++ [Started j (now w); Invoked j (now w)] /\
    lastCallTime (self w') = now w /\
    attempts_of j (trace w) = O /\
    ~ In j (started_ids (trace w)).

(** The error is one whose [message] is a string containing 429. *)
Definition has_marker (e : thrown) : bool :=
  match e with
  | Value _ (MsgString text) => includes "429" text
  | _ => false
  end.

(** A provider that answers every call with 429, and surroundings that add
    no delay. *)
Definition busy (n : nat) : thrown :=
  Value n (MsgString "429 Too Many Requests").

Definition always_busy : schedule :=
  mkSchedule (fun _ n => Threw (busy n)) (fun _ => 0%N).

(** ** Shapes of a step

    What one step can do to the trace, the retry counter and the suspended
    activation.  [loops] before and after, the entries added, and the counter
    are all an observer needs to follow [retryWithBackoff]. *)
Inductive effect (w w' : world) : Prop :=
| quiet :
    trace w' = trace w ->
    retryCount (self w') = retryCount (self w) ->
    (loops w' = loops w \/
     (flat_map inflight_of (loops w) = [] /\
      flat_map inflight_of (loops w') = [])) ->
    effect w w'
| start (j : job) :
    trace w' = trace w ++ [Started j (now w); Invoked j (now w)] ->
    retryCount (self w') = retryCount (self w) ->
    flat_map inflight_of (loops w) = [] ->
    loops w' = [AwaitJob j] ->
    ~ In j (started_ids (trace w)) ->
    effect w w'
| retry (j : job) (due : Z) :
    loops w = [AwaitJob j] ->
    trace w' = trace w ++ [Backoff j (2 ^ (retryCount (self w) + 1) * 1000)] ->
    retryCount (self w') = retryCount (self w) + 1 ->
    retryCount (self w) < maxRetries (self w) ->
    loops w' = [AwaitBackoff j due] ->
    effect w w'
| again (j : job) (due : Z) :
    loops w = [AwaitBackoff j due] ->
    trace w' = trace w ++ [Invoked j (now w)] ->
    retryCount (self w') = retryCount (self w) ->
    loops w' = [AwaitJob j] ->
    effect w w'
| resolve (j : job) (result : nat) :
    loops w = [AwaitJob j] ->
    trace w' = trace w ++ [Resolved j result] ->
    retryCount (self w') = 0 ->
    loops w' = [AwaitTask] ->
    effect w w'
| reject (j : job) (e : thrown) :
    loops w = [AwaitJob j] ->
    trace w' = trace w ++ [Rejected j e] ->
    retryCount (self w') = retryCount (self w) ->
    loops w' = [AwaitTask] ->
    effect w w'.

(** Sum of a list of delays. *)
Definition total (l : list Z) : Z := fold_right Z.add 0 l.

(** Whether the latest settlement on record is a rejection. *)
Definition last_failed (t : list entry) : bool :=
  fold_left (fun acc e =>
               match e with
               | Resolved _ _ => false
               | Rejected _ _ => true
               | _ => acc
               end) t false.

(** Bounds that hold in every reachable state: on the calls of each
    callable, on the backoff delays, and on the counter after a success. *)
Record Bounded (w : world) : Prop := mkBounded {
  bounded_calls : forall j, (attempts_of j (trace w) <= 4)%nat;
  bounded_flight : forall j,
      In j (flat_map inflight_of (loops w)) ->
      Z.of_nat (attempts_of j (trace w)) <= retryCount (self w) + 1 /\
      total (backoffs_of j (trace w))
      <= (2 ^ (retryCount (self w) + 1) - 2) * 1000;
  bounded_pending : forall j due,
      loops w = [AwaitBackoff j due] ->
      Z.of_nat (attempts_of j (trace w)) <= retryCount (self w);
  bounded_delays : forall j ms,
      In (Backoff j ms) (trace w) -> ms = 2000 \/ ms = 4000 \/ ms = 8000;
  bounded_total : forall j, total (backoffs_of j (trace w)) <= 14000;
  bounded_fresh : forall j,
      ~ In j (started_ids (trace w)) -> backoffs_of j (trace w) = [];
  bounded_success :
      flat_map inflight_of (loops w) = [] ->
      last_failed (trace w) = false -> retryCount (self w) = 0
}.

(** ** The chat routes, src/index.ts lines 30-40 and 50-60

    Both [catch] blocks are the same code. *)

(** [res.status(status).json({ error })]. *)
Inductive response : Type :=
| Json (status : Z) (error : string).

(** [error.message?.includes(needle)] for a needle other than 429.
    [searchable_answer] is what a message that is not a string but has an
    [includes] method of its own answers to this query. *)
Definition message_test (needle : string) (searchable_answer : bool)
    (error : thrown) : completion bool :=
  match error with
  | Nullish => Abrupt EngineTypeError
  | Value _ MsgAbsent => Normal false
  | Value _ (MsgString text) => Normal (includes needle text)
  | Value _ MsgOpaque => Abrupt EngineTypeError
  | Value _ (MsgSearchable _) => Normal searchable_answer
  | EngineTypeError => Normal false
  end.

(** The [if] chain of the [catch] block; [Abrupt] when a test throws, in
    which case no response is sent. *)
Definition chat_error_response (answer401 : bool) (error : thrown)
    : completion response :=
  match is_rate_limited error with
  | Abrupt raised => Abrupt raised
  | Normal true =>
      Normal (Json 429 "Rate limit exceeded. Please try again later.")
  | Normal false =>
      match message_test "401" answer401 error with
      | Abrupt raised => Abrupt raised
      | Normal true =>
          Normal
            (Json 401 "Authentication failed. Please check your API key.")
      | Normal false => Normal (Json 500 "Internal server error")
      end
  end.

(** ** The agent's routing: the module src/index.ts imports as ./agent,
    lines 25-29 and 92-100 *)

(** A message of the graph state, as far as routing looks at it:
    [tool_calls] is missing on messages that are not replies of the model. *)
Record base_message : Type := mkMessage {
  tool_calls : option (list nat)
}.

Inductive route : Type := ToTools | ToEnd.

(** The reducer of [messages], [(x, y) => x.concat(y)], on an update that
    is an array. *)
Definition reducer (x y : list base_message) : list base_message := x ++ y.

(** [shouldContinue]: [messages[messages.length - 1]] is undefined on an
    empty array, and reading [tool_calls] off it throws. *)
Definition shouldContinue (messages : list base_message)
    : completion route :=
  match nth_error messages (List.length messages - 1) with
  | None => Abrupt EngineTypeError
  | Some lastMessage =>
      match tool_calls lastMessage with
      | Some (_ :: _) => Normal ToTools
      | _ => Normal ToEnd
      end
  end.

(** * Lemmas *)

(** *** Lists of consecutive numbers *)

Lemma seq_middle (l1 l2 : list nat) (j : nat) :
  forall a n, l1 ++ j :: l2 = seq a n ->
    j = (a + List.length l1)%nat /\ l1 = seq a (List.length l1).
Proof.
  induction l1 as [|x l1 IH]; intros a n H.
  - destruct n as [|n]; simpl in H; [discriminate|].
    injection H as -> _. split; [simpl; lia | reflexivity].
  - destruct n as [|n]; simpl in H; [discriminate|].
    injection H as Hx H. destruct (IH _ _ H) as [Hj E].
    split; [simpl; lia | simpl; f_equal; assumption].
Qed.

Lemma seq_before (l1 l2 : list nat) (j n x : nat) :
  l1 ++ j :: l2 = seq 0 n -> In x l1 -> (x < j)%nat.
Proof.
  intros H Hx. destruct (seq_middle _ _ _ _ _ H) as [-> E].
  rewrite E in Hx. apply in_seq in Hx. lia.
Qed.

Lemma seq_fresh (l : list nat) (n : nat) : l = seq 0 n -> ~ In n l.
Proof. intros -> H. apply in_seq in H. lia. Qed.

(** *** Reading traces piecewise *)

Lemma started_ids_app t1 t2 :
  started_ids (t1 ++ t2) = started_ids t1 ++ started_ids t2.
Proof. apply flat_map_app. Qed.

Lemma settled_ids_app t1 t2 :
  settled_ids (t1 ++ t2) = settled_ids t1 ++ settled_ids t2.
Proof. apply flat_map_app. Qed.

Lemma invoked_ids_app t1 t2 :
  invoked_ids (t1 ++ t2) = invoked_ids t1 ++ invoked_ids t2.
Proof. apply flat_map_app. Qed.

Lemma backoffs_of_app j t1 t2 :
  backoffs_of j (t1 ++ t2) = backoffs_of j t1 ++ backoffs_of j t2.
Proof. apply flat_map_app. Qed.

Lemma attempts_of_app j t1 t2 :
  attempts_of j (t1 ++ t2) = (attempts_of j t1 + attempts_of j t2)%nat.
Proof. unfold attempts_of. rewrite invoked_ids_app. apply count_occ_app. Qed.

Lemma last_start_app d t1 t2 :
  last_start d (t1 ++ t2) = last_start (last_start d t1) t2.
Proof. apply fold_left_app. Qed.

Lemma in_started_ids j t tr : In (Started j t) tr -> In j (started_ids tr).
Proof.
  intros H. apply in_flat_map. exists (Started j t). split; [exact H|].
  simpl. auto.
Qed.

Lemma started_ids_in j tr :
  In j (started_ids tr) -> exists t, In (Started j t) tr.
Proof.
  intros H. apply in_flat_map in H. destruct H as [e [He Hj]].
  destruct e; simpl in Hj; try contradiction.
  destruct Hj as [-> | []]. eauto.
Qed.

Lemma run_app evs1 evs2 w : run (evs1 ++ evs2) w = run evs2 (run evs1 w).
Proof. apply fold_left_app. Qed.

Lemma run_snoc evs ev w : run (evs ++ [ev]) w = step ev (run evs w).
Proof. rewrite run_app. reflexivity. Qed.

(** *** The invariant, step by step *)

#[local] Arguments seq : simpl never.

Ltac good_fields H :=
  destruct H as [Hsingle Hflag Hidle Horder Hflight Hinvoked Hlast Hlatest
                 Hpast Hdue Hspaced Hbudget Hmax Hrate].

Ltac trace_norm :=
  simpl in *;
  unfold started_ids, settled_ids, invoked_ids, last_start in *;
  simpl in *;
  repeat (rewrite flat_map_app in * || rewrite fold_left_app in * );
  simpl in *;
  repeat rewrite app_nil_r in *.

Ltac split_in :=
  repeat match goal with
  | H : In _ (_ ++ _) |- _ => apply in_app_iff in H; destruct H as [H | H]
  | H : In _ (_ :: _) |- _ => destruct H as [H | H]
  | H : In _ [] |- _ => destruct H
  | H : _ \/ False |- _ => destruct H as [H | []]
  | H : False |- _ => destruct H
  | H : Started _ _ = Started _ _ |- _ => injection H as ? ?; subst
  | H : AwaitInterval _ _ = AwaitInterval _ _ |- _ => injection H as ? ?; subst
  | H : @eq entry _ _ |- _ => discriminate H
  | H : @eq loop _ _ |- _ => discriminate H
  end.

Ltac good_auto :=
  try assumption;
  try (split; intros;
       first [ congruence | reflexivity
             | match goal with F : _ <-> _ |- _ => apply F; congruence end ];
       fail);
  try (intros; discriminate);
  try (intros; split_in; eauto; try lia; fail).

Lemma good_loops rl w ls ls' : Good rl (set_loops ls' w) ls <-> Good rl w ls.
Proof. destruct w; split; intros H; good_fields H; constructor; assumption. Qed.

Lemma good_redue rl w j due due' :
  Good rl w [AwaitInterval j due] ->
  lastCallTime (self w) + rl <= due' ->
  Good rl w [AwaitInterval j due'].
Proof.
  intros H Hd. good_fields H. constructor; good_auto.
Qed.

Lemma invoke_good rl w j due :
  Good rl w [AwaitBackoff j due] ->
  Good rl (fst (invoke j w)) [AwaitJob j].
Proof.
  intros H. good_fields H. destruct w as [[q p lct rc mr rlim] nw ls n tr].
  constructor; trace_norm; good_auto.
  intros j0 Hj. split_in; subst; auto.
  rewrite <- Hflight. apply in_app_iff. simpl. auto.
Qed.

Lemma task_start_good rl w j due :
  Good rl w [AwaitInterval j due] -> due <= now w ->
  Good rl (fst (task_start j w)) [AwaitJob j].
Proof.
  intros H Hnow. good_fields H.
  destruct w as [[q p lct rc mr rlim] nw ls n tr].
  constructor; trace_norm; good_auto.
  - rewrite <- app_assoc. exact Horder.
  - rewrite Hflight. reflexivity.
  - intros j0 Hj. apply in_app_iff. split_in; subst; simpl; auto.
  - intros j1 t1 j2 t2 H1 H2 Hlt. split_in; eauto.
    + assert (j2 < j1)%nat; [|lia].
      eapply seq_before; [exact Horder|].
      apply (in_started_ids _ _ _ H2).
    + specialize (Hlatest _ _ H1).
      specialize (Hdue _ _ (or_introl eq_refl)). lia.
    + lia.
Qed.

Lemma task_begin_good rl w j due :
  Good rl w [AwaitInterval j due] ->
  exists l, snd (task_begin j w) = Some l /\
            Good rl (fst (task_begin j w)) [l].
Proof.
  intros H. unfold task_begin.
  pose proof (good_rate _ _ _ H) as Hr.
  destruct (Z.ltb_spec (now w - lastCallTime (self w)) (rateLimit (self w))).
  - eexists; split; [reflexivity|]. simpl.
    eapply good_redue; [exact H | lia].
  - eexists; split; [reflexivity|].
    apply task_start_good with (due := lastCallTime (self w) + rl); [|lia].
    eapply good_redue; [exact H | lia].
Qed.

Lemma dequeue_good rl w j rest :
  Good rl w [AwaitTask] -> queue (self w) = j :: rest ->
  Good rl (set_queue rest w)
       [AwaitInterval j (lastCallTime (self w) + rl)].
Proof.
  intros H Hq. good_fields H.
  destruct w as [[q p lct rc mr rlim] nw ls n tr].
  simpl in Hq. subst q.
  constructor; trace_norm; good_auto.
Qed.

Lemma loop_head_good rl w :
  Good rl w [AwaitTask] ->
  Good rl (fst (loop_head w))
       (match snd (loop_head w) with Some l => [l] | None => [] end).
Proof.
  intros H. unfold loop_head.
  destruct (queue (self w)) as [|j rest] eqn:Hq.
  - good_fields H. destruct w as [[q p lct rc mr rlim] nw ls n tr].
    simpl in Hq. subst q.
    constructor; trace_norm; good_auto.
  - destruct (task_begin_good _ _ _ _ (dequeue_good _ _ _ _ H Hq))
      as [l [-> Hl]].
    exact Hl.
Qed.

Lemma settle_good rl w j o :
  Good rl w [AwaitJob j] ->
  exists l, snd (settle j o w) = Some l /\
            Good rl (fst (settle j o w)) [l].
Proof.
  intros H. good_fields H.
  destruct w as [[q p lct rc mr rlim] nw ls n tr].
  unfold settle. destruct o as [result | error].
  - eexists; split; [reflexivity|].
    constructor; trace_norm; good_auto.
  - destruct (is_rate_limited error) as [hit | raised].
    + simpl retryCount; simpl maxRetries.
      destruct hit; simpl andb;
        [destruct (Z.ltb_spec rc mr)|];
        (eexists; split; [reflexivity|]);
        constructor; trace_norm; good_auto;
        try (rewrite <- app_assoc; exact Hflight); try lia.
    + eexists; split; [reflexivity|].
      constructor; trace_norm; good_auto.
Qed.

(** The bodies leave the list of activations alone; [resume] and
    [processQueue] update it afterwards. *)
Lemma loops_task_begin j w : loops (fst (task_begin j w)) = loops w.
Proof. unfold task_begin. destruct (_ <? _); reflexivity. Qed.

Lemma loops_loop_head w : loops (fst (loop_head w)) = loops w.
Proof.
  unfold loop_head. destruct (queue (self w)); [reflexivity|].
  rewrite loops_task_begin. reflexivity.
Qed.

Lemma loops_settle j o w : loops (fst (settle j o w)) = loops w.
Proof.
  unfold settle. destruct o as [|e]; [reflexivity|].
  destruct (is_rate_limited e) as [hit|]; [|reflexivity].
  destruct (_ && _); reflexivity.
Qed.

Lemma single_loop (ls : list loop) i l :
  (List.length ls <= 1)%nat -> nth_error ls i = Some l -> ls = [l] /\ i = O.
Proof.
  destruct ls as [|x [|y ls]]; simpl; intros Hlen Hnth.
  - destruct i; discriminate.
  - destruct i as [|i]; simpl in Hnth.
    + injection Hnth as ->. auto.
    + destruct i; discriminate.
  - lia.
Qed.

Lemma resume_inv rl k w i :
  Inv rl w ->
  (forall l w' l', loops w = [l] -> k l w = Some (w', l') ->
     loops w' = loops w /\ Good rl w' (as_list l')) ->
  Inv rl (resume i k w).
Proof.
  intros H Hk. unfold resume.
  destruct (nth_error (loops w) i) as [l|] eqn:Hnth; [|exact H].
  destruct (single_loop _ _ _ (good_single _ _ _ H) Hnth) as [Hls ->].
  destruct (k l w) as [[w' l']|] eqn:Hkl; [|exact H].
  destruct (Hk _ _ _ Hls Hkl) as [Hloops Hgood].
  unfold Inv. rewrite Hloops, Hls. simpl.
  apply good_loops. destruct l'; exact Hgood.
Qed.

Lemma step_inv rl ev w : Inv rl w -> Inv rl (step ev w).
Proof.
  intros H. destruct ev as [ms | | i | i o | i]; simpl.
  - unfold Inv in *. good_fields H.
    destruct w as [[q p lct rc mr rlim] nw ls n tr].
    constructor; trace_norm; good_auto.
    intros j t Hin. specialize (Hpast _ _ Hin). lia.
  - unfold execute, processQueue.
    set (w1 := set_queue _ _).
    assert (Hloops1 : loops w1 = loops w) by reflexivity.
    destruct (processing (self w1)) eqn:Hp; simpl orb.
    + unfold Inv in *. rewrite Hloops1. good_fields H.
      destruct w as [[q p lct rc mr rlim] nw ls n tr]. simpl in Hp. subst p.
      constructor; trace_norm; good_auto.
      * intros ->. destruct Hflag as [Hflag _]. elim (Hflag eq_refl). reflexivity.
      * rewrite seq_S. simpl. rewrite <- Horder.
        rewrite !app_assoc. reflexivity.
    + assert (Hls : loops w = []).
      { destruct (loops w) eqn:E; [reflexivity|].
        destruct (good_flag _ _ _ H) as [_ Hf]. unfold Inv in H.
        rewrite E in Hf. simpl in Hp.
        assert (processing (self w) = true) by (apply Hf; discriminate).
        congruence. }
      assert (Hq : queue (self w) = []) by (apply (good_idle _ _ _ H Hls)).
      assert (G : Good rl (set_processing true w1) [AwaitTask]).
      { unfold Inv in H. rewrite Hls in H. good_fields H. subst w1.
        destruct w as [[q p lct rc mr rlim] nw ls n tr]. simpl in *. subst.
        constructor; trace_norm; good_auto.
        rewrite seq_S. simpl. rewrite <- Horder. reflexivity. }
      assert (Hlen : (List.length (queue (self w) ++ [submitted w]) =? 0)%nat
                     = false) by (rewrite Hq; reflexivity).
      rewrite Hlen.
      pose proof (loop_head_good _ _ G) as G'.
      pose proof (loops_loop_head (set_processing true w1)) as Hl'.
      destruct (loop_head (set_processing true w1)) as [w' l'].
      simpl in G', Hl'. unfold Inv.
      destruct l' as [l'|].
      * simpl. rewrite Hl'. simpl. rewrite Hls. simpl.
        apply good_loops. exact G'.
      * rewrite Hl'. simpl. rewrite Hls. exact G'.
  - apply resume_inv; [exact H|].
    intros l w' l' Hls Hk. unfold Inv in H. rewrite Hls in H.
    destruct l as [j due | j | j due |]; simpl in Hk; try discriminate.
    + destruct (Z.leb_spec due (now w)); [|discriminate].
      injection Hk as <- <-. split; [reflexivity|].
      eapply task_start_good; eauto.
    + destruct (Z.leb_spec due (now w)); [|discriminate].
      injection Hk as <- <-. split; [reflexivity|].
      eapply invoke_good; eauto.
  - apply resume_inv; [exact H|].
    intros l w' l' Hls Hk. unfold Inv in H. rewrite Hls in H.
    destruct l as [j due | j | j due |]; simpl in Hk; try discriminate.
    injection Hk as Hk.
    destruct (settle_good _ _ _ o H) as [l [Hl G]].
    rewrite Hk in Hl, G. simpl in Hl, G. subst l'.
    split; [|exact G].
    change w' with (fst (w', Some l)). rewrite <- Hk. apply loops_settle.
  - apply resume_inv; [exact H|].
    intros l w' l' Hls Hk. unfold Inv in H. rewrite Hls in H.
    destruct l as [j due | j | j due |]; simpl in Hk; try discriminate.
    injection Hk as Hk.
    pose proof (loop_head_good _ _ H) as G.
    rewrite Hk in G. simpl in G. split; [|destruct l'; exact G].
    change w' with (fst (w', l')). rewrite <- Hk. apply loops_loop_head.
Qed.

Lemma init_inv rl t0 : Inv rl (init rl t0).
Proof.
  constructor; simpl; good_auto.
Qed.

Lemma run_inv_from rl evs : forall w, Inv rl w -> Inv rl (run evs w).
Proof.
  induction evs as [|ev evs IH]; intros w H; simpl; [exact H|].
  apply IH. apply step_inv. exact H.
Qed.

Lemma run_inv rl t0 evs : Inv rl (run evs (init rl t0)).
Proof. apply run_inv_from. apply init_inv. Qed.

Lemma inv_cases rl w :
  Inv rl w -> loops w = [] \/ exists l, loops w = [l].
Proof.
  intros H. pose proof (good_single _ _ _ H) as Hs.
  destruct (loops w) as [|l [|l' ls]]; simpl in Hs; eauto. lia.
Qed.

(** What one round of [drive] does, by where the activation is suspended. *)
Lemma drive_timer_due (due t : Z) (late : N) :
  (due <=? t + Z.of_N (Z.to_N (due - t) + late)) = true.
Proof. apply Z.leb_le. lia. Qed.


Lemma drive_backoff sch w j due :
  loops w = [AwaitBackoff j due] ->
  run (next sch w) w =
  set_loops [AwaitJob j]
    (fst (invoke j
       (set_now (now w + Z.of_N (Z.to_N (due - now w)
                                 + lag sch (List.length (trace w)))) w))).
Proof.
  intros E. unfold next. rewrite E. cbn [run fold_left step].
  unfold resume. cbn [loops set_now]. rewrite E. cbn [nth_error on_timeout].
  unfold set_now at 1. cbn [now]. rewrite drive_timer_due.
  unfold invoke. simpl. rewrite E. reflexivity.
Qed.

Lemma drive_job sch w j :
  loops w = [AwaitJob j] ->
  run (next sch w) w =
  let w1 := set_now (now w + Z.of_N (lag sch (List.length (trace w)))) w in
  let o := ends sch j (pred (attempts_of j (trace w))) in
  set_loops (as_list (snd (settle j o w1))) (fst (settle j o w1)).
Proof.
  intros E. unfold next. rewrite E. cbn [run fold_left step].
  unfold resume. cbn [loops set_now]. rewrite E. cbn [nth_error on_settle].
  cbv zeta.
  set (w1 := set_now _ w).
  pose proof (loops_settle j (ends sch j (pred (attempts_of j (trace w)))) w1)
    as Hl.
  destruct (settle j _ w1) as [w' l']. simpl in Hl. rewrite Hl.
  subst w1. cbn [loops set_now]. rewrite E. destruct l'; reflexivity.
Qed.



#[local] Arguments Nat.mul : simpl never.
#[local] Arguments Z.to_nat : simpl never.






(** *** Single steps, spelled out *)

Lemma step_resume w :
  loops w = [AwaitTask] ->
  step (Resume 0) w =
  set_loops (as_list (snd (loop_head w))) (fst (loop_head w)).
Proof.
  intros E. cbn [step]. unfold resume. rewrite E. cbn [nth_error on_resume].
  pose proof (loops_loop_head w) as Hl.
  destruct (loop_head w) as [w' l']. simpl in Hl. rewrite Hl, E.
  destruct l'; reflexivity.
Qed.

Lemma step_settle w j o :
  loops w = [AwaitJob j] ->
  step (Settle 0 o) w =
  set_loops (as_list (snd (settle j o w))) (fst (settle j o w)).
Proof.
  intros E. cbn [step]. unfold resume. rewrite E. cbn [nth_error on_settle].
  pose proof (loops_settle j o w) as Hl.
  destruct (settle j o w) as [w' l']. simpl in Hl. rewrite Hl, E.
  destruct l'; reflexivity.
Qed.

Lemma step_execute_busy w :
  processing (self w) = true ->
  step Execute w =
  set_queue (queue (self w) ++ [submitted w])
            (set_submitted (S (submitted w)) w).
Proof.
  intros Hp. cbn [step]. unfold execute, processQueue.
  cbn [set_queue set_submitted with_self self processing]. rewrite Hp.
  reflexivity.
Qed.

Lemma step_execute_idle rl w :
  Inv rl w -> processing (self w) = false ->
  step Execute w =
  let j := submitted w in
  let w1 := set_processing true (set_submitted (S j) w) in
  set_loops (as_list (snd (task_begin j w1))) (fst (task_begin j w1)).
Proof.
  intros H Hp.
  assert (Hls : loops w = []).
  { destruct (loops w) eqn:E; [reflexivity|].
    destruct (good_flag _ _ _ H) as [_ Hf]. unfold Inv in H.
    rewrite E in Hf.
    assert (processing (self w) = true) by (apply Hf; discriminate).
    congruence. }
  pose proof (good_idle _ _ _ H Hls) as Hq.
  destruct w as [[q p lct rc mr rlim] nw ls n tr]. simpl in *. subst.
  unfold execute, processQueue, loop_head, task_begin. simpl.
  destruct (_ <? _); reflexivity.
Qed.

Lemma seq_split (l1 l2 : list nat) :
  forall a n, l1 ++ l2 = seq a n ->
    l1 = seq a (List.length l1) /\
    l2 = seq (a + List.length l1) (n - List.length l1).
Proof.
  induction l1 as [|x l1 IH]; intros a n H; simpl in *.
  - rewrite Nat.add_0_r, Nat.sub_0_r. auto.
  - destruct n as [|n]; [discriminate|].
    change (seq a (S n)) with (a :: seq (S a) n) in H.
    injection H as -> H. destruct (IH _ _ H) as [E1 E2].
    split; [change (seq a (S (List.length l1)))
              with (a :: seq (S a) (List.length l1)); congruence|].
    rewrite E2 at 1. f_equal; lia.
Qed.

(** * The claims *)






(** C6.  Jobs start in the order of their [execute] calls, and settle in the
    order they start.  In every run the jobs that have started are exactly
    the first [started] ones submitted, in that order; the jobs that have
    settled are the first [settled] of those, in that order, with at most one
    job started and not yet settled; and the jobs still waiting (held for
    the interval, or in the queue) are the remaining ones, still in
    submission order.  So a job never starts while one submitted before it
    has not. *)
Theorem jobs_start_in_submission_order (rl t0 : Z) (evs : list event) :
  let w := run evs (init rl t0) in
  exists started settled : nat,
    started_ids (trace w) = seq 0 started /\
    settled_ids (trace w) = seq 0 settled /\
    (settled <= started <= submitted w)%nat /\
    (started <= S settled)%nat /\
    flat_map waiting_of (loops w) ++ queue (self w)
    = seq started (submitted w - started) /\
    (forall i j, (i < j)%nat -> In j (started_ids (trace w)) ->
                 In i (started_ids (trace w))).
Proof.
  intros w. pose proof (run_inv rl t0 evs) as H. fold w in H.
  pose proof (good_order _ _ _ H) as Ho.
  pose proof (good_flight _ _ _ H) as Hf.
  destruct (seq_split _ _ _ _ Ho) as [Hs Hrest].
  rewrite Hs in Hf. destruct (seq_split _ _ _ _ Hf) as [Hse Hin].
  pose proof (f_equal (@List.length job) Ho) as Lo.
  pose proof (f_equal (@List.length job) Hf) as Lf.
  rewrite length_app, !length_seq in *.
  assert (Li : (List.length (flat_map inflight_of (loops w)) <= 1)%nat).
  { destruct (inv_cases _ _ H) as [E | [l E]]; rewrite E; simpl; [lia|].
    destruct l; simpl; lia. }
  exists (List.length (started_ids (trace w))),
         (List.length (settled_ids (trace w))).
  split; [exact Hs|]. split; [exact Hse|].
  clearbody w. unfold job in *.
  split; [lia|]. split; [lia|]. split; [exact Hrest|].
  intros i j Hlt Hj. rewrite Hs in *. apply in_seq in Hj. apply in_seq. lia.
Qed.

Lemma jobs_start_in_submission_order_witness :
  let w := run [Execute; Execute; Execute; Settle 0 (Fulfilled 1); Resume 0]
               (init 0 5) in
  (0 < 1)%nat /\ In 1%nat (started_ids (trace w)) /\
  In 0%nat (started_ids (trace w)).
Proof.
  destruct (jobs_start_in_submission_order 0 5
    [Execute; Execute; Execute; Settle 0 (Fulfilled 1); Resume 0])
    as [started [settled [_ [_ [_ [_ [_ Before]]]]]]].
  assert (I : In 1%nat (started_ids (trace (run
    [Execute; Execute; Execute; Settle 0 (Fulfilled 1); Resume 0]
    (init 0 5))))) by (vm_compute; tauto).
  cbv zeta. split; [lia|]. split; [exact I|].
  apply (Before 0%nat 1%nat); [lia | exact I].
Defined.

(** C8, as the code has it.  The constructor takes the minimum interval and
    nothing else; [maxRetries] is 3 in every instance, and neither value
    changes while the limiter runs. *)
Theorem configuration_is_fixed (rl t0 : Z) (evs : list event) :
  rateLimit (self (run evs (init rl t0))) = rl /\
  maxRetries (self (run evs (init rl t0))) = 3 /\
  maxRetries (new_RateLimiter rl) = 3.
Proof.
  pose proof (run_inv rl t0 evs) as H.
  split; [exact (good_rate _ _ _ H)|].
  split; [exact (good_max _ _ _ H) | reflexivity].
Qed.

(** C8 as stated fails: no argument of the constructor yields an instance
    whose retry budget is, say, 5. *)
Lemma maxRetries_cannot_be_chosen :
  ~ exists rl : Z, maxRetries (new_RateLimiter rl) = 5.
Proof. intros [rl E]. simpl in E. discriminate. Qed.

(** *** What [retryWithBackoff] touches *)

Lemma settle_frame j o w :
  lastCallTime (self (fst (settle j o w))) = lastCallTime (self w) /\
  queue (self (fst (settle j o w))) = queue (self w) /\
  processing (self (fst (settle j o w))) = processing (self w) /\
  started_ids (trace (fst (settle j o w))) = started_ids (trace w).
Proof.
  unfold settle. destruct o as [v | e].
  - simpl. rewrite started_ids_app. simpl. rewrite app_nil_r. auto.
  - destruct (is_rate_limited e) as [hit|];
      [destruct (_ && _)|]; simpl; rewrite started_ids_app; simpl;
      rewrite app_nil_r; auto.
Qed.





(** *** When [lastCallTime] is written *)

Lemma not_yet_started (l1 l2 : list job) (j : job) (n : nat) :
  l1 ++ j :: l2 = seq 0 n -> ~ In j l1.
Proof.
  intros H Hin. pose proof (seq_before _ _ _ _ _ H Hin). lia.
Qed.

Lemma never_invoked rl w ls j :
  Good rl w ls -> ~ In j (started_ids (trace w)) ->
  attempts_of j (trace w) = O.
Proof.
  intros H Hn. unfold attempts_of. apply count_occ_not_In.
  intros Hin. apply Hn. apply (good_invoked _ _ _ H). exact Hin.
Qed.

Lemma task_begin_effect j w :
  (fst (task_begin j w) = w /\
   exists due, snd (task_begin j w) = Some (AwaitInterval j due)) \/
  (trace (fst (task_begin j w))
   = trace w ++ [Started j (now w); Invoked j (now w)] /\
   lastCallTime (self (fst (task_begin j w))) = now w /\
   snd (task_begin j w) = Some (AwaitJob j)).
Proof.
  unfold task_begin. destruct (_ <? _); [left; simpl; eauto|].
  right. simpl. rewrite <- app_assoc. auto.
Qed.

Lemma step_start_or_not rl ev w :
  Inv rl w -> keeps_start w (step ev w) \/ starts_job w (step ev w).
Proof.
  intros H. pose proof (good_order _ _ _ H) as Ho.
  assert (Keep : keeps_start w w) by (split; reflexivity).
  destruct ev as [ms | | i | i o | i]; cbn [step].
  - left. split; reflexivity.
  - destruct (processing (self w)) eqn:Hp.
    + fold (step Execute w). rewrite (step_execute_busy _ Hp).
      left. split; reflexivity.
    + fold (step Execute w). rewrite (step_execute_idle _ _ H Hp).
      cbv zeta.
      set (w1 := set_processing true (set_submitted (S (submitted w)) w)).
      assert (Hls : loops w = []).
      { destruct (loops w) eqn:E; [reflexivity|].
        destruct (good_flag _ _ _ H) as [_ Hf]. unfold Inv in H.
        rewrite E in Hf.
        assert (processing (self w) = true) by (apply Hf; discriminate).
        congruence. }
      rewrite Hls, (good_idle _ _ _ H Hls) in Ho. simpl in Ho.
      rewrite app_nil_r in Ho.
      destruct (task_begin_effect (submitted w) w1)
        as [[Hw _] | [Ht [Hl _]]].
      * left. unfold set_loops, keeps_start. cbn [self trace].
        rewrite Hw. split; reflexivity.
      * right. exists (submitted w). unfold set_loops. cbn [self trace].
        rewrite Ht, Hl.
        assert (Hn : ~ In (submitted w) (started_ids (trace w)))
          by (apply seq_fresh; exact Ho).
        repeat split; try reflexivity; [|exact Hn].
        eapply never_invoked; [exact H | exact Hn].
  - unfold resume.
    destruct (nth_error (loops w) i) as [l|] eqn:Hnth; [|left; exact Keep].
    destruct (single_loop _ _ _ (good_single _ _ _ H) Hnth) as [E ->].
    rewrite E in Ho.
    destruct l as [j due | j | j due |]; cbn [on_timeout];
      try (left; exact Keep).
    + destruct (due <=? now w); [|left; exact Keep].
      right. exists j. simpl. rewrite <- app_assoc.
      assert (Hn : ~ In j (started_ids (trace w)))
        by (eapply not_yet_started; exact Ho).
      repeat split; try reflexivity; [|exact Hn].
      eapply never_invoked; [exact H | exact Hn].
    + destruct (due <=? now w); [|left; exact Keep].
      left. split; [reflexivity|]. simpl. rewrite started_ids_app.
      simpl. apply app_nil_r.
  - unfold resume.
    destruct (nth_error (loops w) i) as [l|] eqn:Hnth; [|left; exact Keep].
    destruct l as [j due | j | j due |]; cbn [on_settle];
      try (left; exact Keep).
    destruct (settle_frame j o w) as [Hl [_ [_ Hs]]].
    destruct (settle j o w) as [w' l'].
    left. split; [exact Hl | exact Hs].
  - unfold resume.
    destruct (nth_error (loops w) i) as [l|] eqn:Hnth; [|left; exact Keep].
    destruct (single_loop _ _ _ (good_single _ _ _ H) Hnth) as [E ->].
    rewrite E in Ho.
    destruct l as [j due | j | j due |]; cbn [on_resume];
      try (left; exact Keep).
    unfold loop_head. destruct (queue (self w)) as [|j rest] eqn:Hq.
    + left. split; reflexivity.
    + simpl in Ho.
      destruct (task_begin_effect j (set_queue rest w))
        as [[Hw _] | [Ht [Hl _]]];
        destruct (task_begin j (set_queue rest w)) as [w' l'];
        cbn [fst snd] in *.
      * left. subst w'. split; reflexivity.
      * right. exists j. unfold set_loops. cbn [self trace].
        assert (Hn : ~ In j (started_ids (trace w)))
          by (eapply not_yet_started; exact Ho).
        repeat split; try assumption.
        eapply never_invoked; [exact H | exact Hn].
Qed.




(** *** What a step adds to the trace *)

(** A step appends to the trace, and calls at most one callable: that of a
    job which has not settled. *)
Lemma step_added rl ev w :
  Inv rl w ->
  exists added,
    trace (step ev w) = trace w ++ added /\
    (invoked_ids added = [] \/
     exists j, invoked_ids added = [j] /\ ~ In j (settled_ids (trace w))).
Proof.
  intros H. pose proof (good_order _ _ _ H) as Ho.
  pose proof (good_flight _ _ _ H) as Hf.
  assert (Sub : forall j, In j (settled_ids (trace w)) ->
                          In j (started_ids (trace w))).
  { intros j Hj. rewrite <- Hf. apply in_app_iff. auto. }
  assert (Quiet : exists added, trace w = trace w ++ added /\
            (invoked_ids added = [] \/
             exists j, invoked_ids added = [j] /\
                       ~ In j (settled_ids (trace w)))).
  { exists []. rewrite app_nil_r. auto. }
  assert (Fresh : forall j, ~ In j (started_ids (trace w)) ->
            exists added,
              trace w ++ [Started j (now w); Invoked j (now w)]
              = trace w ++ added /\
              (invoked_ids added = [] \/
               exists j', invoked_ids added = [j'] /\
                          ~ In j' (settled_ids (trace w)))).
  { intros j Hn. eexists. split; [reflexivity|]. right. exists j.
    split; [reflexivity|]. intros Hj. apply Hn, Sub, Hj. }
  destruct (step_start_or_not rl ev w H) as [_ | [j [Ht [_ [_ Hn]]]]];
    [|rewrite Ht; apply Fresh; exact Hn].
  destruct ev as [ms | | i | i o | i]; cbn [step].
  - exact Quiet.
  - destruct (processing (self w)) eqn:Hp.
    + fold (step Execute w). rewrite (step_execute_busy _ Hp). exact Quiet.
    + fold (step Execute w). rewrite (step_execute_idle _ _ H Hp). cbv zeta.
      set (w1 := set_processing true (set_submitted (S (submitted w)) w)).
      assert (Hls : loops w = []).
      { destruct (loops w) eqn:E; [reflexivity|].
        destruct (good_flag _ _ _ H) as [_ Hfl]. unfold Inv in H.
        rewrite E in Hfl.
        assert (processing (self w) = true) by (apply Hfl; discriminate).
        congruence. }
      rewrite Hls, (good_idle _ _ _ H Hls) in Ho. simpl in Ho.
      rewrite app_nil_r in Ho.
      destruct (task_begin_effect (submitted w) w1)
        as [[Hw _] | [Ht [_ _]]]; unfold set_loops; cbn [trace].
      * rewrite Hw. exact Quiet.
      * rewrite Ht. apply Fresh. apply seq_fresh. exact Ho.
  - unfold resume.
    destruct (nth_error (loops w) i) as [l|] eqn:Hnth; [|exact Quiet].
    destruct (single_loop _ _ _ (good_single _ _ _ H) Hnth) as [E ->].
    rewrite E in Ho, Hf.
    destruct l as [j due | j | j due |]; cbn [on_timeout]; try exact Quiet.
    + destruct (due <=? now w); [|exact Quiet].
      simpl. rewrite <- app_assoc. apply Fresh.
      eapply not_yet_started; exact Ho.
    + destruct (due <=? now w); [|exact Quiet].
      eexists. split; [reflexivity|]. right. exists j.
      split; [reflexivity|]. simpl in Hf.
      pose proof (seq_NoDup (submitted w) 0) as Hnd.
      rewrite <- (good_order _ _ _ H), <- Hf in Hnd.
      apply NoDup_app_remove_r in Hnd.
      apply NoDup_remove_2 in Hnd. rewrite app_nil_r in Hnd. exact Hnd.
  - unfold resume.
    destruct (nth_error (loops w) i) as [l|] eqn:Hnth; [|exact Quiet].
    destruct l as [j due | j | j due |]; cbn [on_settle]; try exact Quiet.
    unfold settle. destruct o as [v | e].
    + eexists. split; [reflexivity|]. auto.
    + destruct (is_rate_limited e) as [hit|]; [destruct (_ && _)|];
        (eexists; split; [reflexivity|]; auto).
  - unfold resume.
    destruct (nth_error (loops w) i) as [l|] eqn:Hnth; [|exact Quiet].
    destruct (single_loop _ _ _ (good_single _ _ _ H) Hnth) as [E ->].
    rewrite E in Ho.
    destruct l as [j due | j | j due |]; cbn [on_resume]; try exact Quiet.
    unfold loop_head. destruct (queue (self w)) as [|j rest] eqn:Hq.
    + exact Quiet.
    + simpl in Ho.
      destruct (task_begin_effect j (set_queue rest w))
        as [[Hw _] | [Ht [_ _]]];
        destruct (task_begin j (set_queue rest w)) as [w' l'];
        cbn [fst snd] in *; unfold set_loops; cbn [trace].
      * subst w'. exact Quiet.
      * rewrite Ht. apply Fresh. eapply not_yet_started; exact Ho.
Qed.

(** Once a job has settled its callable is never called again. *)
Lemma settled_stays rl j evs :
  forall w, Inv rl w -> In j (settled_ids (trace w)) ->
    attempts_of j (trace (run evs w)) = attempts_of j (trace w).
Proof.
  induction evs as [|ev evs IH]; intros w H Hj; [reflexivity|].
  cbn [run fold_left]. fold (run evs (step ev w)).
  destruct (step_added rl ev w H) as [added [Ht Hadd]].
  rewrite IH.
  - rewrite Ht, attempts_of_app. unfold attempts_of at 2.
    destruct Hadd as [-> | [j' [-> Hn]]]; simpl; [lia|].
    destruct (Nat.eq_dec j' j) as [-> | _]; [contradiction | lia].
  - apply step_inv. exact H.
  - rewrite Ht, settled_ids_app. apply in_app_iff. auto.
Qed.

(** C4.  A job whose callable fails, on its first call, with an error whose
    message does not contain 429: in the very step in which the error
    arrives the caller's promise is rejected with that same error; no
    backoff is requested and no time passes; the loop moves on; and the
    callable is never called again, so it has been called exactly once. *)
Theorem other_errors_reject_at_once
    (rl t0 : Z) (evs : list event) (j : job) (ident : nat) (text : string) :
  let w := run evs (init rl t0) in
  let error := Value ident (MsgString text) in
  loops w = [AwaitJob j] ->
  attempts_of j (trace w) = 1%nat ->
  includes "429" text = false ->
  let w' := step (Settle 0 (Threw error)) w in
  trace w' = trace w ++ [Rejected j error] /\
  loops w' = [AwaitTask] /\
  backoffs_of j (trace w') = backoffs_of j (trace w) /\
  now w' = now w /\
  retryCount (self w') = retryCount (self w) /\
  forall evs', attempts_of j (trace (run evs' w')) = 1%nat.
Proof.
  intros w error E Hone Hno w'.
  pose proof (run_inv rl t0 evs) as H. fold w in H. clearbody w.
  assert (H' : Inv rl w') by (apply step_inv; exact H).
  assert (Hw : w' = set_loops [AwaitTask] (observe (Rejected j error) w)).
  { subst w'. rewrite (step_settle _ _ _ E). unfold settle, error.
    cbn [is_rate_limited]. rewrite Hno. reflexivity. }
  clearbody w'. subst w'. cbn [set_loops observe trace loops now self].
  split; [reflexivity|]. split; [reflexivity|].
  split; [rewrite backoffs_of_app; simpl; apply app_nil_r|].
  split; [reflexivity|]. split; [reflexivity|].
  intros evs'. rewrite (settled_stays rl j evs' _ H').
  - cbn [set_loops observe trace]. rewrite attempts_of_app, Hone.
    reflexivity.
  - cbn [set_loops observe trace]. rewrite settled_ids_app.
    apply in_app_iff. right. simpl. auto.
Qed.

Lemma other_errors_reject_at_once_witness :
  let w := run [Execute] (init 2000 1000000) in
  let error := Value 7 (MsgString "invalid request") in
  loops w = [AwaitJob 0%nat] /\
  attempts_of 0%nat (trace w) = 1%nat /\
  includes "429" "invalid request" = false /\
  trace (step (Settle 0 (Threw error)) w)
  = [Started 0%nat 1000000; Invoked 0%nat 1000000; Rejected 0%nat error] /\
  attempts_of 0%nat (trace (run [Resume 0; Execute; Elapse 5000; Timeout 0]
                            (step (Settle 0 (Threw error)) w))) = 1%nat.
Proof.
  assert (L : loops (run [Execute] (init 2000 1000000)) = [AwaitJob 0%nat])
    by reflexivity.
  assert (A : attempts_of 0%nat (trace (run [Execute] (init 2000 1000000)))
              = 1%nat) by reflexivity.
  assert (N : includes "429" "invalid request" = false) by reflexivity.
  destruct (other_errors_reject_at_once 2000 1000000 [Execute] 0%nat 7
              "invalid request" L A N) as [T [_ [_ [_ [_ Once]]]]].
  cbv zeta. split; [exact L|]. split; [exact A|]. split; [exact N|].
  split; [rewrite T; reflexivity|]. apply Once.
Defined.

(** C9, as the code has it.  Detection is safe on every thrown value other
    than null and undefined whose [message] is missing or is a string
    without 429: the test yields false without throwing, and the caller's
    promise is rejected at once with that value; nothing is retried. *)
Theorem detection_safe_on_plain_errors
    (rl t0 : Z) (evs : list event) (j : job) (ident : nat) (msg : message) :
  let w := run evs (init rl t0) in
  let error := Value ident msg in
  loops w = [AwaitJob j] ->
  (msg = MsgAbsent \/
   exists text, msg = MsgString text /\ includes "429" text = false) ->
  is_rate_limited error = Normal false /\
  let w' := step (Settle 0 (Threw error)) w in
  trace w' = trace w ++ [Rejected j error] /\
  loops w' = [AwaitTask] /\
  retryCount (self w') = retryCount (self w) /\
  attempts_of j (trace w') = attempts_of j (trace w).
Proof.
  intros w error E Hmsg. clearbody w.
  assert (Hd : is_rate_limited error = Normal false).
  { unfold error. destruct Hmsg as [-> | [text [-> Hno]]]; simpl;
      [reflexivity | rewrite Hno; reflexivity]. }
  split; [exact Hd|]. intros w'.
  assert (Hw : w' = set_loops [AwaitTask] (observe (Rejected j error) w)).
  { subst w'. rewrite (step_settle _ _ _ E). unfold settle.
    rewrite Hd. reflexivity. }
  clearbody w'. subst w'. cbn [set_loops observe trace loops self].
  split; [reflexivity|]. split; [reflexivity|]. split; [reflexivity|].
  rewrite attempts_of_app. unfold attempts_of at 2. simpl. lia.
Qed.

Lemma detection_safe_on_plain_errors_witness :
  let w := run [Execute] (init 2000 1000000) in
  loops w = [AwaitJob 0%nat] /\
  is_rate_limited (Value 3 MsgAbsent) = Normal false /\
  trace (step (Settle 0 (Threw (Value 3 MsgAbsent))) w)
  = trace w ++ [Rejected 0%nat (Value 3 MsgAbsent)].
Proof.
  assert (L : loops (run [Execute] (init 2000 1000000)) = [AwaitJob 0%nat])
    by reflexivity.
  destruct (detection_safe_on_plain_errors 2000 1000000 [Execute] 0%nat 3
              MsgAbsent L (or_introl eq_refl)) as [D [T _]].
  cbv zeta. split; [exact L|]. split; [exact D|]. exact T.
Defined.

(** C9 as stated fails.  When the callable throws null or undefined, reading
    [message] throws inside the [catch] block: what the caller gets is the
    engine's TypeError, not the value thrown.  The same happens for a value
    whose [message] is, say, a number. *)
Lemma detection_throws_on_nullish :
  let w := run [Execute; Settle 0 (Threw Nullish)] (init 2000 1000000) in
  is_rate_limited Nullish = Abrupt EngineTypeError /\
  is_rate_limited (Value 1 MsgOpaque) = Abrupt EngineTypeError /\
  trace w = [Started 0%nat 1000000; Invoked 0%nat 1000000;
             Rejected 0%nat EngineTypeError] /\
  ~ In (Rejected 0%nat Nullish) (trace w).
Proof.
  cbv zeta. split; [reflexivity|]. split; [reflexivity|].
  split; [reflexivity|].
  simpl. intros [E | [E | [E | []]]]; discriminate.
Qed.

(** *** Retrying *)

Lemma has_marker_detected e :
  has_marker e = true -> is_rate_limited e = Normal true.
Proof.
  destruct e as [| ident [| text | |] |]; simpl; try discriminate.
  intros ->. reflexivity.
Qed.

Lemma drive_add sch a : forall b w,
  drive (a + b) sch w = drive b sch (drive a sch w).
Proof. induction a as [|a IH]; intros b w; simpl; [reflexivity | apply IH]. Qed.

(** One failed call that is retried: the counter goes up by one, a backoff
    of [2 ^ retryCount] seconds is requested, and when that timer runs the
    callable is called again. *)
Lemma retry_round sch w j e :
  loops w = [AwaitJob j] ->
  ends sch j (pred (attempts_of j (trace w))) = Threw e ->
  is_rate_limited e = Normal true ->
  0 <= retryCount (self w) < maxRetries (self w) ->
  exists late late' : N,
    (late = lag sch (List.length (trace w))) /\
    (late' = lag sch (S (List.length (trace w)))) /\
    let ms := 2 ^ (retryCount (self w) + 1) * 1000 in
    let again := now w + Z.of_N late + ms + Z.of_N late' in
    drive 2 sch w =
    set_loops [AwaitJob j]
      (observe (Invoked j again)
         (observe (Backoff j ms)
            (set_retryCount (retryCount (self w) + 1) (set_now again w)))).
Proof.
  intros E He Hd Hrc.
  exists (lag sch (List.length (trace w))),
         (lag sch (S (List.length (trace w)))).
  split; [reflexivity|]. split; [reflexivity|]. cbv zeta.
  cbn [drive]. rewrite (drive_job _ _ _ E). cbv zeta. rewrite He.
  unfold settle. rewrite Hd.
  cbn [set_now self retryCount maxRetries].
  destruct (Z.ltb_spec (retryCount (self w)) (maxRetries (self w))); [|lia].
  cbn [andb fst snd as_list].
  erewrite drive_backoff by reflexivity.
  assert (Hms : 0 <= 2 ^ (retryCount (self w) + 1) * 1000).
  { apply Z.mul_nonneg_nonneg; [apply Z.pow_nonneg|]; lia. }
  destruct w as [[q p lct rc mr rlim] nw ls n tr]. simpl in *.
  unfold set_loops, observe, set_retryCount, set_now, with_self. simpl.
  rewrite length_app. simpl. rewrite Nat.add_1_r.
  replace (nw + Z.of_N (lag sch (List.length tr)) + 2 ^ (rc + 1) * 1000
           - (nw + Z.of_N (lag sch (List.length tr))))
    with (2 ^ (rc + 1) * 1000) by lia.
  rewrite N2Z.inj_add, Z2N.id by exact Hms.
  rewrite !Z.add_assoc. reflexivity.
Qed.

Lemma retry_round_facts sch w j e :
  loops w = [AwaitJob j] ->
  ends sch j (pred (attempts_of j (trace w))) = Threw e ->
  is_rate_limited e = Normal true ->
  0 <= retryCount (self w) < maxRetries (self w) ->
  exists t,
    loops (drive 2 sch w) = [AwaitJob j] /\
    trace (drive 2 sch w)
    = trace w ++ [Backoff j (2 ^ (retryCount (self w) + 1) * 1000);
                  Invoked j t] /\
    now (drive 2 sch w) = t /\
    retryCount (self (drive 2 sch w)) = retryCount (self w) + 1 /\
    maxRetries (self (drive 2 sch w)) = maxRetries (self w) /\
    now w + 2 ^ (retryCount (self w) + 1) * 1000 <= t /\
    ((forall n, lag sch n = 0%N) ->
     t = now w + 2 ^ (retryCount (self w) + 1) * 1000).
Proof.
  intros E He Hd Hrc.
  destruct (retry_round sch w j e E He Hd Hrc) as [late [late' [-> [-> Hw]]]].
  cbv zeta in Hw. rewrite Hw. eexists.
  split; [reflexivity|]. split; [simpl; rewrite <- app_assoc; reflexivity|].
  split; [reflexivity|]. split; [reflexivity|]. split; [reflexivity|].
  split; [lia|]. intros Hz. rewrite !Hz. simpl. lia.
Qed.



Lemma attempts_after_retry j ms t tr :
  attempts_of j (tr ++ [Backoff j ms; Invoked j t]) = S (attempts_of j tr).
Proof.
  rewrite attempts_of_app. unfold attempts_of at 2. simpl.
  destruct (Nat.eq_dec j j); [lia | congruence].
Qed.




(** C2 holds of the specification and not of the code.  Two jobs, both
    answered with 429 every time: the first uses up the three retries and is
    rejected with the counter left at 3 (line 67 resets it only after a
    success); the second is called once and rejected without any retry. *)
Theorem retry_budget_leaks_into_next_job :
  let w := drive 20 always_busy (run [Execute; Execute] (init 100 1000000)) in
  loops w = [] /\
  settled_ids (trace w) = [0%nat; 1%nat] /\
  attempts_of 0%nat (trace w) = 4%nat /\
  backoffs_of 0%nat (trace w) = [2000; 4000; 8000] /\
  attempts_of 1%nat (trace w) = 1%nat /\
  backoffs_of 1%nat (trace w) = [] /\
  In (Rejected 1%nat (busy 0)) (trace w) /\
  retryCount (self w) = 3.
Proof.
  cbv zeta. vm_compute. repeat split; try reflexivity. tauto.
Qed.


(** * Further properties of the limiter *)

(** Every step of a reachable state has one of the six shapes. *)
Lemma step_effect rl ev w : Inv rl w -> effect w (step ev w).
Proof.
  intros H. pose proof (good_order _ _ _ H) as Ho.
  assert (Still : effect w w) by (apply quiet; auto).
  destruct ev as [ms | | i | i o | i]; cbn [step].
  - apply quiet; auto.
  - destruct (processing (self w)) eqn:Hp.
    + fold (step Execute w). rewrite (step_execute_busy _ Hp).
      apply quiet; auto.
    + fold (step Execute w). rewrite (step_execute_idle _ _ H Hp). cbv zeta.
      set (w1 := set_processing true (set_submitted (S (submitted w)) w)).
      assert (Hls : loops w = []).
      { destruct (loops w) eqn:E; [reflexivity|].
        destruct (good_flag _ _ _ H) as [_ Hfl]. unfold Inv in H.
        rewrite E in Hfl.
        assert (processing (self w) = true) by (apply Hfl; discriminate).
        congruence. }
      rewrite Hls, (good_idle _ _ _ H Hls) in Ho. simpl in Ho.
      rewrite app_nil_r in Ho.
      destruct (task_begin_effect (submitted w) w1)
        as [[Hw [due Hd]] | [Ht [_ Hd]]]; rewrite Hd; cbn [as_list].
      * rewrite Hw. apply quiet; try reflexivity.
        right. rewrite Hls. auto.
      * apply (start _ _ (submitted w)); try reflexivity.
        -- exact Ht.
        -- unfold task_begin. destruct (_ <? _); reflexivity.
        -- rewrite Hls. reflexivity.
        -- apply seq_fresh. exact Ho.
  - unfold resume.
    destruct (nth_error (loops w) i) as [l|] eqn:Hnth; [|exact Still].
    destruct (single_loop _ _ _ (good_single _ _ _ H) Hnth) as [E ->].
    rewrite E in Ho.
    destruct l as [j due | j | j due |]; cbn [on_timeout]; try exact Still.
    + destruct (due <=? now w); [|exact Still].
      apply (start _ _ j).
      * simpl. rewrite <- app_assoc. reflexivity.
      * reflexivity.
      * rewrite E. reflexivity.
      * simpl. rewrite E. reflexivity.
      * eapply not_yet_started; exact Ho.
    + destruct (due <=? now w); [|exact Still].
      apply (again _ _ j due); try reflexivity; [exact E|].
      simpl. rewrite E. reflexivity.
  - unfold resume.
    destruct (nth_error (loops w) i) as [l|] eqn:Hnth; [|exact Still].
    destruct (single_loop _ _ _ (good_single _ _ _ H) Hnth) as [E ->].
    destruct l as [j due | j | j due |]; cbn [on_settle]; try exact Still.
    unfold settle. destruct o as [v | e].
    + apply (resolve _ _ j v); try reflexivity; [exact E|].
      simpl. rewrite E. reflexivity.
    + destruct (is_rate_limited e) as [hit|].
      * destruct hit; cbn [andb].
        -- destruct (Z.ltb_spec (retryCount (self w)) (maxRetries (self w))).
           ++ eapply (retry _ _ j); try reflexivity; try assumption.
              simpl. rewrite E. reflexivity.
           ++ apply (reject _ _ j e); try reflexivity; [exact E|].
              simpl. rewrite E. reflexivity.
        -- apply (reject _ _ j e); try reflexivity; [exact E|].
           simpl. rewrite E. reflexivity.
      * apply (reject _ _ j e0); try reflexivity; [exact E|].
        simpl. rewrite E. reflexivity.
  - unfold resume.
    destruct (nth_error (loops w) i) as [l|] eqn:Hnth; [|exact Still].
    destruct (single_loop _ _ _ (good_single _ _ _ H) Hnth) as [E ->].
    rewrite E in Ho.
    destruct l as [j due | j | j due |]; cbn [on_resume]; try exact Still.
    unfold loop_head. destruct (queue (self w)) as [|j rest] eqn:Hq.
    + apply quiet; try reflexivity. right. simpl. rewrite E. auto.
    + simpl in Ho.
      destruct (task_begin_effect j (set_queue rest w))
        as [[Hw [due Hd]] | [Ht [_ Hd]]].
      * destruct (task_begin j (set_queue rest w)) as [w' l'].
        cbn [fst snd] in *. subst w' l'. apply quiet; try reflexivity.
        right. simpl. rewrite E. auto.
      * assert (Hrc : retryCount (self (fst (task_begin j (set_queue rest w))))
                      = retryCount (self w))
          by (unfold task_begin; destruct (_ <? _); reflexivity).
        pose proof (loops_task_begin j (set_queue rest w)) as Hlp.
        destruct (task_begin j (set_queue rest w)) as [w' l'].
        cbn [fst snd] in *. subst l'.
        apply (start _ _ j); try assumption.
        -- rewrite E. reflexivity.
        -- simpl in *. rewrite Hlp, E. reflexivity.
        -- eapply not_yet_started; exact Ho.
Qed.

Lemma total_app l1 l2 : total (l1 ++ l2) = total l1 + total l2.
Proof.
  induction l1 as [|x l1 IH]; simpl; [reflexivity|]. rewrite IH. lia.
Qed.

Lemma attempts_snoc_invoked j j' t tr :
  attempts_of j (tr ++ [Invoked j' t])
  = (attempts_of j tr + if Nat.eq_dec j' j then 1 else 0)%nat.
Proof.
  rewrite attempts_of_app. unfold attempts_of at 2. simpl.
  destruct (Nat.eq_dec j' j); reflexivity.
Qed.

Lemma attempts_snoc_other j e tr :
  invoked_id e = [] -> attempts_of j (tr ++ [e]) = attempts_of j tr.
Proof.
  intros He. rewrite attempts_of_app. unfold attempts_of at 2. simpl.
  rewrite He. simpl. lia.
Qed.

Lemma backoffs_snoc j e tr :
  backoffs_of j (tr ++ [e]) = backoffs_of j tr ++ backoff_of j e.
Proof. rewrite backoffs_of_app. simpl. rewrite app_nil_r. reflexivity. Qed.

Lemma last_failed_snoc e tr :
  last_failed (tr ++ [e])
  = match e with
    | Resolved _ _ => false
    | Rejected _ _ => true
    | _ => last_failed tr
    end.
Proof. unfold last_failed. rewrite fold_left_app. reflexivity. Qed.

Lemma pow2_cases rc :
  0 <= rc <= 3 ->
  2 ^ (rc + 1) = 2 \/ 2 ^ (rc + 1) = 4 \/ 2 ^ (rc + 1) = 8 \/
  2 ^ (rc + 1) = 16.
Proof.
  intros Hrc.
  assert (rc = 0 \/ rc = 1 \/ rc = 2 \/ rc = 3) as [-> | [-> | [-> | ->]]]
    by lia; auto.
Qed.

Lemma inflight_started rl w j :
  Inv rl w -> In j (flat_map inflight_of (loops w)) ->
  In j (started_ids (trace w)).
Proof.
  intros H Hj. rewrite <- (good_flight _ _ _ H). apply in_app_iff. auto.
Qed.

Lemma step_bounded rl ev w :
  Inv rl w -> Bounded w -> Bounded (step ev w).
Proof.
  intros H B. pose proof (good_budget _ _ _ H) as Hb.
  pose proof (good_max _ _ _ H) as Hm. rewrite Hm in Hb.
  destruct B as [Bc Bf Bp Bd Bt Bn Bs].
  destruct (step_effect rl ev w H)
    as [Ht Hrc Hl | j Ht Hrc Hin Hl Hn | j due E Ht Hrc Hlt Hl
        | j due E Ht Hrc Hl | j v E Ht Hrc Hl | j e E Ht Hrc Hl];
    set (w' := step ev w) in *; clearbody w'.
  - (* nothing observed *)
    constructor; rewrite ?Ht, ?Hrc; auto.
    + intros j Hj. destruct Hl as [Hl | [_ Hl]]; rewrite Hl in Hj;
        [auto | destruct Hj].
    + intros j due E. destruct Hl as [Hl | [_ Hl]]; rewrite E in Hl.
      * eauto.
      * discriminate.
    + intros Hi. destruct Hl as [Hl | [Hl _]]; [rewrite Hl in Hi|]; auto.
  - (* a job starts *)
    assert (H0 : attempts_of j (trace w) = O)
      by (eapply never_invoked; [exact H | exact Hn]).
    assert (Hat : forall j', (attempts_of j' (trace w') <= 4)%nat /\
              (j' = j -> attempts_of j' (trace w') = 1%nat)).
    { intros j'. rewrite Ht.
      replace (trace w ++ [Started j (now w); Invoked j (now w)])
        with ((trace w ++ [Started j (now w)]) ++ [Invoked j (now w)])
        by (rewrite <- app_assoc; reflexivity).
      rewrite attempts_snoc_invoked, attempts_snoc_other by reflexivity.
      pose proof (Bc j'). destruct (Nat.eq_dec j j') as [<- | Hne].
      - split; [lia | intros _; lia].
      - split; [lia | intros ->; congruence]. }
    assert (Hbk : forall j', backoffs_of j' (trace w')
                             = backoffs_of j' (trace w)).
    { intros j'. rewrite Ht, backoffs_of_app. simpl. apply app_nil_r. }
    constructor; rewrite ?Hrc.
    + intros j'. apply Hat.
    + intros j' Hj. rewrite Hl in Hj. destruct Hj as [<- | []].
      rewrite (proj2 (Hat j) eq_refl).
      rewrite Hbk, (Bn _ Hn). simpl.
      destruct (pow2_cases (retryCount (self w)) Hb) as [-> | [-> | [-> | ->]]];
        lia.
    + intros j' due E. rewrite Hl in E. discriminate.
    + intros j' ms Hi. rewrite Ht in Hi. apply in_app_iff in Hi.
      destruct Hi as [Hi | [Hi | [Hi | []]]]; [eauto | discriminate ..].
    + intros j'. rewrite Hbk. apply Bt.
    + intros j' Hj'. rewrite Hbk. apply Bn. intros Hi. apply Hj'.
      rewrite Ht, started_ids_app. apply in_app_iff. auto.
    + rewrite Hl. discriminate.
  - (* a retry is scheduled *)
    assert (Hj : In j (flat_map inflight_of (loops w)))
      by (rewrite E; simpl; auto).
    destruct (Bf j Hj) as [Ha Hs].
    assert (Hat : forall j', attempts_of j' (trace w')
                             = attempts_of j' (trace w))
      by (intros j'; rewrite Ht; apply attempts_snoc_other; reflexivity).
    assert (Hbk : forall j', j' <> j ->
              backoffs_of j' (trace w') = backoffs_of j' (trace w)).
    { intros j' Hne. rewrite Ht, backoffs_snoc. simpl.
      destruct (Nat.eqb_spec j' j); [congruence | apply app_nil_r]. }
    assert (Hbj : total (backoffs_of j (trace w'))
                  = total (backoffs_of j (trace w))
                    + 2 ^ (retryCount (self w) + 1) * 1000).
    { rewrite Ht, backoffs_snoc, total_app. simpl.
      rewrite Nat.eqb_refl. simpl. lia. }
    set (ms := 2 ^ (retryCount (self w) + 1) * 1000) in *.
    assert (Hms : (ms = 2000 \/ ms = 4000 \/ ms = 8000) /\
                  (2 ^ (retryCount (self w) + 1) - 2) * 1000 + ms
                  = (2 ^ (retryCount (self w) + 1 + 1) - 2) * 1000 /\
                  (2 ^ (retryCount (self w) + 1 + 1) - 2) * 1000 <= 14000).
    { subst ms.
      assert (retryCount (self w) = 0 \/ retryCount (self w) = 1 \/
              retryCount (self w) = 2) as [R | [R | R]] by lia;
        rewrite R; simpl; lia. }
    destruct Hms as [Hms [Hsum Hcap]].
    constructor; rewrite ?Hrc.
    + intros j'. rewrite Hat. apply Bc.
    + intros j' Hj'. rewrite Hl in Hj'. destruct Hj' as [<- | []].
      rewrite Hat, Hbj. split; lia.
    + intros j' due' E'. rewrite Hl in E'. injection E' as <- _.
      rewrite Hat. lia.
    + intros j' ms' Hi. rewrite Ht in Hi. apply in_app_iff in Hi.
      destruct Hi as [Hi | [Hi | []]]; [eauto|].
      injection Hi as _ <-. exact Hms.
    + intros j'. destruct (Nat.eq_dec j' j) as [-> | Hne].
      * rewrite Hbj. lia.
      * rewrite Hbk by exact Hne. apply Bt.
    + intros j' Hj'. rewrite Hbk.
      * apply Bn. intros Hi. apply Hj'. rewrite Ht, started_ids_app.
        apply in_app_iff. auto.
      * intros ->. apply Hj'. rewrite Ht, started_ids_app.
        apply in_app_iff. left. eapply inflight_started; eauto.
    + rewrite Hl. discriminate.
  - (* the callable is called again *)
    assert (Hj : In j (flat_map inflight_of (loops w)))
      by (rewrite E; simpl; auto).
    destruct (Bf j Hj) as [_ Hs]. pose proof (Bp _ _ E) as Ha.
    assert (Hbk : forall j', backoffs_of j' (trace w')
                             = backoffs_of j' (trace w))
      by (intros j'; rewrite Ht, backoffs_snoc; simpl; apply app_nil_r).
    assert (Hat : forall j', attempts_of j' (trace w')
              = (attempts_of j' (trace w)
                 + if Nat.eq_dec j j' then 1 else 0)%nat)
      by (intros j'; rewrite Ht; apply attempts_snoc_invoked).
    constructor; rewrite ?Hrc.
    + intros j'. rewrite Hat. pose proof (Bc j').
      destruct (Nat.eq_dec j j') as [<- | _]; lia.
    + intros j' Hj'. rewrite Hl in Hj'. destruct Hj' as [<- | []].
      rewrite Hat, Hbk. destruct (Nat.eq_dec j j); [|congruence].
      split; [lia | exact Hs].
    + intros j' due' E'. rewrite Hl in E'. discriminate.
    + intros j' ms Hi. rewrite Ht in Hi. apply in_app_iff in Hi.
      destruct Hi as [Hi | [Hi | []]]; [eauto | discriminate].
    + intros j'. rewrite Hbk. apply Bt.
    + intros j' Hj'. rewrite Hbk. apply Bn. intros Hi. apply Hj'.
      rewrite Ht, started_ids_app. apply in_app_iff. auto.
    + rewrite Hl. discriminate.
  - (* the promise is resolved *)
    assert (Hbk : forall j', backoffs_of j' (trace w')
                             = backoffs_of j' (trace w))
      by (intros j'; rewrite Ht, backoffs_snoc; simpl; apply app_nil_r).
    assert (Hat : forall j', attempts_of j' (trace w')
                             = attempts_of j' (trace w))
      by (intros j'; rewrite Ht; apply attempts_snoc_other; reflexivity).
    constructor.
    + intros j'. rewrite Hat. apply Bc.
    + intros j' Hj'. rewrite Hl in Hj'. destruct Hj'.
    + intros j' due' E'. rewrite Hl in E'. discriminate.
    + intros j' ms Hi. rewrite Ht in Hi. apply in_app_iff in Hi.
      destruct Hi as [Hi | [Hi | []]]; [eauto | discriminate].
    + intros j'. rewrite Hbk. apply Bt.
    + intros j' Hj'. rewrite Hbk. apply Bn. intros Hi. apply Hj'.
      rewrite Ht, started_ids_app. apply in_app_iff. auto.
    + intros _ _. exact Hrc.
  - (* the promise is rejected *)
    assert (Hbk : forall j', backoffs_of j' (trace w')
                             = backoffs_of j' (trace w))
      by (intros j'; rewrite Ht, backoffs_snoc; simpl; apply app_nil_r).
    assert (Hat : forall j', attempts_of j' (trace w')
                             = attempts_of j' (trace w))
      by (intros j'; rewrite Ht; apply attempts_snoc_other; reflexivity).
    constructor.
    + intros j'. rewrite Hat. apply Bc.
    + intros j' Hj'. rewrite Hl in Hj'. destruct Hj'.
    + intros j' due' E'. rewrite Hl in E'. discriminate.
    + intros j' ms Hi. rewrite Ht in Hi. apply in_app_iff in Hi.
      destruct Hi as [Hi | [Hi | []]]; [eauto | discriminate].
    + intros j'. rewrite Hbk. apply Bt.
    + intros j' Hj'. rewrite Hbk. apply Bn. intros Hi. apply Hj'.
      rewrite Ht, started_ids_app. apply in_app_iff. auto.
    + intros _ Hf. rewrite Ht, last_failed_snoc in Hf. discriminate.
Qed.

Lemma init_bounded rl t0 : Bounded (init rl t0).
Proof.
  constructor; simpl; auto; try (intros; lia); try (intros; contradiction).
Qed.

Lemma run_bounded_from rl evs :
  forall w, Inv rl w -> Bounded w -> Bounded (run evs w).
Proof.
  induction evs as [|ev evs IH]; intros w H B; simpl; [exact B|].
  apply IH; [apply step_inv | apply (step_bounded rl)]; assumption.
Qed.

Lemma run_bounded rl t0 evs : Bounded (run evs (init rl t0)).
Proof.
  apply (run_bounded_from rl); [apply init_inv | apply init_bounded].
Qed.

(** In every run, whatever the callables do and however calls and
    completions interleave: no callable is called more than four times; each
    backoff requested is of 2, 4 or 8 seconds; the backoffs of one job add up
    to 14 seconds at most; and the retry counter stays between 0 and 3. *)
Theorem calls_and_backoff_are_bounded
    (rl t0 : Z) (evs : list event) (j : job) :
  let w := run evs (init rl t0) in
  (attempts_of j (trace w) <= 4)%nat /\
  (forall ms, In (Backoff j ms) (trace w) ->
              ms = 2000 \/ ms = 4000 \/ ms = 8000) /\
  total (backoffs_of j (trace w)) <= 14000 /\
  0 <= retryCount (self w) <= 3.
Proof.
  intros w. pose proof (run_bounded rl t0 evs) as B.
  pose proof (run_inv rl t0 evs) as H. fold w in B, H.
  pose proof (good_budget _ _ _ H) as Hb. rewrite (good_max _ _ _ H) in Hb.
  split; [apply (bounded_calls _ B)|].
  split; [intros ms; apply (bounded_delays _ B)|].
  split; [apply (bounded_total _ B) | exact Hb].
Qed.

Lemma calls_and_backoff_are_bounded_witness :
  let w := run [Execute; Settle 0 (Threw (busy 0)); Elapse 2000; Timeout 0;
                Settle 0 (Threw (busy 1))] (init 100 5000) in
  In (Backoff 0%nat 4000) (trace w) /\
  (4000 = 2000 \/ 4000 = 4000 \/ 4000 = 8000) /\
  (attempts_of 0%nat (trace w) <= 4)%nat.
Proof.
  destruct (calls_and_backoff_are_bounded 100 5000
    [Execute; Settle 0 (Threw (busy 0)); Elapse 2000; Timeout 0;
     Settle 0 (Threw (busy 1))] 0%nat) as [Calls [Delays _]].
  assert (I : In (Backoff 0%nat 4000) (trace (run
    [Execute; Settle 0 (Threw (busy 0)); Elapse 2000; Timeout 0;
     Settle 0 (Threw (busy 1))] (init 100 5000))))
    by (vm_compute; tauto).
  cbv zeta. split; [exact I|]. split; [exact (Delays 4000 I) | exact Calls].
Defined.

(** A job that starts when the latest settlement was a success, or when
    nothing has settled yet, starts with the retry counter at 0: it has the
    whole budget of three retries. *)
Theorem full_budget_after_success
    (rl t0 : Z) (evs : list event) (ev : event) (j : job) (t : Z) :
  let w := run evs (init rl t0) in
  trace (step ev w) = trace w ++ [Started j t; Invoked j t] ->
  last_failed (trace w) = false ->
  retryCount (self (step ev w)) = 0 /\
  loops (step ev w) = [AwaitJob j] /\
  budget_left (self (step ev w)) = 3%nat.
Proof.
  intros w Hstart Hok. pose proof (run_bounded rl t0 evs) as B.
  pose proof (run_inv rl t0 evs) as H. fold w in B, H. clearbody w.
  pose proof (step_inv rl ev w H) as H'.
  assert (Hnil : forall (e1 e2 : entry) l, l ++ [e1; e2] <> l ++ []).
  { intros e1 e2 l E. apply app_inv_head in E. discriminate. }
  assert (Hone : forall (e1 e2 e3 : entry) l, l ++ [e1; e2] <> l ++ [e3]).
  { intros e1 e2 e3 l E. apply app_inv_head in E. discriminate. }
  destruct (step_effect rl ev w H)
    as [Ht Hrc Hl | j' Ht Hrc Hin Hl Hn | j' due E Ht Hrc Hlt Hl
        | j' due E Ht Hrc Hl | j' v E Ht Hrc Hl | j' e E Ht Hrc Hl];
    rewrite Hstart in Ht;
    try (exfalso; eapply Hone; exact Ht).
  - exfalso. rewrite <- (app_nil_r (trace w)) in Ht at 2.
    eapply Hnil; exact Ht.
  - apply app_inv_head in Ht. injection Ht as <- _.
    assert (R : retryCount (self (step ev w)) = 0)
      by (rewrite Hrc; apply (bounded_success _ B); assumption).
    split; [exact R|]. split; [exact Hl|].
    unfold budget_left. rewrite R, (good_max _ _ _ H'). reflexivity.
Qed.

Lemma full_budget_after_success_witness :
  let w := run [Execute; Execute; Settle 0 (Threw (busy 0)); Elapse 2000;
                Timeout 0; Settle 0 (Fulfilled 1)] (init 0 5000) in
  trace (step (Resume 0) w)
  = trace w ++ [Started 1%nat 7000; Invoked 1%nat 7000] /\
  last_failed (trace w) = false /\
  retryCount (self (step (Resume 0) w)) = 0.
Proof.
  assert (S : trace (step (Resume 0) (run
      [Execute; Execute; Settle 0 (Threw (busy 0)); Elapse 2000;
       Timeout 0; Settle 0 (Fulfilled 1)] (init 0 5000)))
    = trace (run [Execute; Execute; Settle 0 (Threw (busy 0)); Elapse 2000;
                  Timeout 0; Settle 0 (Fulfilled 1)] (init 0 5000))
      ++ [Started 1%nat 7000; Invoked 1%nat 7000])
    by (vm_compute; reflexivity).
  assert (F : last_failed (trace (run
      [Execute; Execute; Settle 0 (Threw (busy 0)); Elapse 2000;
       Timeout 0; Settle 0 (Fulfilled 1)] (init 0 5000))) = false)
    by (vm_compute; reflexivity).
  destruct (full_budget_after_success 0 5000
    [Execute; Execute; Settle 0 (Threw (busy 0)); Elapse 2000;
     Timeout 0; Settle 0 (Fulfilled 1)] (Resume 0) 1%nat 7000 S F)
    as [R _].
  cbv zeta. split; [exact S|]. split; [exact F | exact R].
Defined.

(** *** What the detection looks for *)

Lemma prefix_split (a : string) : forall s,
  prefix a s = true <-> exists post, s = (a ++ post)%string.
Proof.
  induction a as [|c a IH]; intros s.
  - split; [intros _; exists s; reflexivity
           | intros _; destruct s; reflexivity].
  - destruct s as [|d s].
    + split; [discriminate | intros [post E]; discriminate].
    + change (prefix (String c a) (String d s))
        with (match ascii_dec c d with
              | left _ => prefix a s
              | right _ => false
              end).
      destruct (ascii_dec c d) as [-> | Hne].
      * rewrite IH. split; intros [post E]; exists post.
        -- rewrite E. reflexivity.
        -- injection E as E. exact E.
      * split; [discriminate | intros [post E]].
        injection E as E _. congruence.
Qed.

Lemma includes_split (needle : string) : forall s,
  includes needle s = true <->
  exists pre post, s = (pre ++ needle ++ post)%string.
Proof.
  induction s as [|c s IH]; cbn [includes].
  - rewrite prefix_split. split.
    + intros [post E]. exists EmptyString, post. exact E.
    + intros [pre [post E]]. destruct pre as [|d pre]; [|discriminate].
      exists post. exact E.
  - rewrite orb_true_iff, IH, prefix_split. split.
    + intros [[post E] | [pre [post E]]].
      * exists EmptyString, post. exact E.
      * exists (String c pre), post. rewrite E. reflexivity.
    + intros [pre [post E]]. destruct pre as [|d pre].
      * left. exists post. exact E.
      * right. injection E as _ E. exists pre, post. exact E.
Qed.

(** For a thrown value whose [message] is a string, the test at line 82
    says rate-limited exactly when the three characters 429 occur next to
    each other somewhere in the message; nothing else about the error is
    looked at. *)
Theorem rate_limit_is_a_substring_test (ident : nat) (text : string) :
  is_rate_limited (Value ident (MsgString text)) = Normal true <->
  exists pre post, text = (pre ++ "429" ++ post)%string.
Proof.
  cbn [is_rate_limited]. rewrite <- includes_split. split.
  - intros E. injection E as E. exact E.
  - intros ->. reflexivity.
Qed.

(** *** Failures that pass *)

Lemma success_round sch w j v :
  loops w = [AwaitJob j] ->
  ends sch j (pred (attempts_of j (trace w))) = Fulfilled v ->
  loops (drive 1 sch w) = [AwaitTask] /\
  trace (drive 1 sch w) = trace w ++ [Resolved j v] /\
  retryCount (self (drive 1 sch w)) = 0.
Proof.
  intros E He. cbn [drive]. rewrite (drive_job _ _ _ E). cbv zeta.
  rewrite He. unfold settle. repeat split; reflexivity.
Qed.

(** [k] failures in a row that are all retried. *)
Lemma retries_in_a_row sch j errs : forall k w a,
  loops w = [AwaitJob j] ->
  attempts_of j (trace w) = S a ->
  0 <= retryCount (self w) ->
  retryCount (self w) + Z.of_nat k <= maxRetries (self w) ->
  (forall n, (a <= n < a + k)%nat ->
     ends sch j n = Threw (errs n) /\ has_marker (errs n) = true) ->
  exists mid,
    trace (drive (2 * k) sch w) = trace w ++ mid /\
    settled_ids mid = [] /\
    attempts_of j mid = k /\
    backoffs_of j mid
    = map (fun i => 2 ^ (retryCount (self w) + Z.of_nat (S i)) * 1000)
          (seq 0 k) /\
    loops (drive (2 * k) sch w) = [AwaitJob j] /\
    retryCount (self (drive (2 * k) sch w))
    = retryCount (self w) + Z.of_nat k /\
    maxRetries (self (drive (2 * k) sch w)) = maxRetries (self w).
Proof.
  induction k as [|k IH]; intros w a E Ha Hrc Hmax Hends.
  - exists []. simpl. rewrite app_nil_r, Z.add_0_r. auto 10.
  - destruct (Hends a) as [He Hm]; [lia|].
    destruct (retry_round_facts sch w j (errs a) E)
      as [t [E1 [T1 [_ [R1 [M1 _]]]]]];
      [rewrite Ha; exact He | apply has_marker_detected, Hm | lia |].
    replace (2 * S k)%nat with (2 + 2 * k)%nat by lia.
    rewrite drive_add. set (w1 := drive 2 sch w) in *. clearbody w1.
    destruct (IH w1 (S a) E1) as [mid [T [S0 [A [B [L [R M]]]]]]].
    + rewrite T1, attempts_after_retry, Ha. reflexivity.
    + lia.
    + rewrite R1, M1. lia.
    + intros n Hn. apply Hends. lia.
    + exists ([Backoff j (2 ^ (retryCount (self w) + 1) * 1000);
               Invoked j t] ++ mid).
      split; [rewrite T, T1, <- app_assoc; reflexivity|].
      split; [rewrite settled_ids_app, S0; reflexivity|].
      split.
      { rewrite attempts_of_app, A. unfold attempts_of. simpl.
        destruct (Nat.eq_dec j j); [reflexivity | congruence]. }
      split.
      { rewrite backoffs_of_app, B. simpl. rewrite Nat.eqb_refl. simpl.
        f_equal. rewrite <- seq_shift, map_map. apply map_ext.
        intros i. rewrite R1. do 2 f_equal. lia. }
      split; [exact L|]. split; [rewrite R, R1; lia | congruence].
Qed.

(** A job whose callable fails [k] times with a 429 error, for some [k] up
    to 3, and then succeeds, starting from a retry counter of 0: the caller's
    promise is resolved with the result of the call that succeeded; nothing
    is rejected on the way; the callable has been called [k + 1] times, with
    backoffs of 2, 4, ... seconds before the retries; and the counter is back
    at 0 afterwards, so the failures cost the next job nothing. *)
Theorem transient_failures_are_retried
    (rl t0 : Z) (evs : list event) (j : job) (sch : schedule)
    (errs : nat -> thrown) (k : nat) (v : nat) :
  let w := run evs (init rl t0) in
  loops w = [AwaitJob j] ->
  retryCount (self w) = 0 ->
  attempts_of j (trace w) = 1%nat ->
  (k <= 3)%nat ->
  (forall n, (n < k)%nat ->
     ends sch j n = Threw (errs n) /\ has_marker (errs n) = true) ->
  ends sch j k = Fulfilled v ->
  let w' := drive (2 * k + 1) sch w in
  exists mid,
    trace w' = trace w ++ mid ++ [Resolved j v] /\
    settled_ids mid = [] /\
    attempts_of j (trace w') = S k /\
    backoffs_of j (trace w')
    = backoffs_of j (trace w) ++ firstn k [2000; 4000; 8000] /\
    retryCount (self w') = 0 /\
    loops w' = [AwaitTask].
Proof.
  intros w E Hrc Hone Hk Hends Hok w'.
  pose proof (run_inv rl t0 evs) as H. fold w in H. clearbody w.
  pose proof (good_max _ _ _ H) as Hmax.
  destruct (retries_in_a_row sch j errs k w 0 E Hone)
    as [mid [T [S0 [A [B [L [R M]]]]]]];
    [lia | lia | intros n Hn; apply Hends; lia |].
  subst w'. rewrite drive_add.
  set (w1 := drive (2 * k) sch w) in *. clearbody w1.
  assert (A1 : attempts_of j (trace w1) = S k)
    by (rewrite T, attempts_of_app, Hone, A; reflexivity).
  destruct (success_round sch w1 j v L) as [L2 [T2 R2]];
    [rewrite A1; exact Hok|].
  exists mid.
  split; [rewrite T2, T, <- app_assoc; reflexivity|].
  split; [exact S0|].
  split; [rewrite T2; rewrite attempts_snoc_other by reflexivity; exact A1|].
  split; [|split; assumption].
  rewrite T2, backoffs_snoc, T, backoffs_of_app, B, Hrc. simpl backoff_of.
  rewrite app_nil_r. f_equal.
  destruct k as [|[|[|[|k]]]]; [reflexivity .. | lia].
Qed.

Lemma transient_failures_are_retried_witness :
  let sch := mkSchedule (fun _ n => match n with
                                    | O => Threw (busy 0)
                                    | _ => Fulfilled 42
                                    end) (fun _ => 0%N) in
  let w := run [Execute] (init 100 5000) in
  loops w = [AwaitJob 0%nat] /\ retryCount (self w) = 0 /\
  attempts_of 0%nat (trace w) = 1%nat /\ (1 <= 3)%nat /\
  attempts_of 0%nat (trace (drive 3 sch w)) = 2%nat /\
  retryCount (self (drive 3 sch w)) = 0.
Proof.
  assert (L : loops (run [Execute] (init 100 5000)) = [AwaitJob 0%nat])
    by reflexivity.
  assert (R : retryCount (self (run [Execute] (init 100 5000))) = 0)
    by reflexivity.
  assert (A : attempts_of 0%nat (trace (run [Execute] (init 100 5000)))
              = 1%nat) by reflexivity.
  assert (K : (1 <= 3)%nat) by lia.
  destruct (transient_failures_are_retried 100 5000 [Execute] 0%nat
    (mkSchedule (fun _ n => match n with
                            | O => Threw (busy 0)
                            | _ => Fulfilled 42
                            end) (fun _ => 0%N))
    busy 1 42 L R A K) as [mid [_ [_ [Two [_ [Zero _]]]]]].
  - intros n Hn. assert (n = O) as -> by lia. split; reflexivity.
  - reflexivity.
  - cbv zeta. split; [exact L|]. split; [exact R|]. split; [exact A|].
    split; [exact K|]. split; [exact Two | exact Zero].
Defined.

(** *** A caller that awaits each job *)

(** [seedDatabase] awaits each [execute] before it makes the next call
    (lines 151-164), so at each call every job submitted before has settled.
    In such a state the queue is empty and no job is held back or under way;
    the new task is the next thing the loop takes up, whether [execute] finds
    the limiter idle or its loop about to continue at line 99; and it starts
    at once if the interval has passed since the latest start, and otherwise
    waits until exactly [lastCallTime + rateLimit]. *)
Theorem awaited_jobs_never_queue (rl t0 : Z) (evs : list event) :
  let w := run evs (init rl t0) in
  settled_ids (trace w) = seq 0 (submitted w) ->
  queue (self w) = [] /\
  (loops w = [] \/ loops w = [AwaitTask]) /\
  let w' := run [Execute; Resume 0] w in
  queue (self w') = [] /\
  ((rl <= now w - lastCallTime (self w) /\
    loops w' = [AwaitJob (submitted w)] /\
    trace w' = trace w ++ [Started (submitted w) (now w);
                           Invoked (submitted w) (now w)]) \/
   (now w - lastCallTime (self w) < rl /\
    loops w' = [AwaitInterval (submitted w) (lastCallTime (self w) + rl)] /\
    trace w' = trace w)).
Proof.
  intros w Hall. pose proof (run_inv rl t0 evs) as H. fold w in H.
  clearbody w.
  pose proof (good_order _ _ _ H) as Ho.
  pose proof (good_flight _ _ _ H) as Hf.
  pose proof (good_rate _ _ _ H) as Hr.
  pose proof (f_equal (@List.length job) Ho) as Lo.
  pose proof (f_equal (@List.length job) Hf) as Lf.
  pose proof (f_equal (@List.length job) Hall) as La.
  rewrite !length_app in Lo. rewrite length_app in Lf.
  rewrite length_seq in Lo, La.
  assert (Hq : queue (self w) = [])
    by (apply length_zero_iff_nil; unfold job in *; lia).
  assert (Hw : flat_map waiting_of (loops w) = [])
    by (apply length_zero_iff_nil; unfold job in *; lia).
  assert (Hi : flat_map inflight_of (loops w) = [])
    by (apply length_zero_iff_nil; unfold job in *; lia).
  assert (Hl : loops w = [] \/ loops w = [AwaitTask]).
  { destruct (inv_cases _ _ H) as [E | [l E]]; [auto|]. rewrite E in Hw, Hi.
    destruct l; simpl in Hw, Hi; try discriminate. auto. }
  split; [exact Hq|]. split; [exact Hl|]. cbv zeta.
  cbn [run fold_left]. destruct Hl as [E | E].
  - assert (Hp : processing (self w) = false).
    { destruct (processing (self w)) eqn:P; [|reflexivity].
      destruct (good_flag _ _ _ H) as [Hfl _]. elim (Hfl P). exact E. }
    rewrite (step_execute_idle _ _ H Hp). cbv zeta. unfold task_begin.
    cbn [set_processing set_submitted with_self self now lastCallTime
         rateLimit]. rewrite Hr.
    destruct (Z.ltb_spec (now w - lastCallTime (self w)) rl).
    + split; [exact Hq|]. right. split; [assumption|].
      split; [|reflexivity]. simpl. do 2 f_equal. lia.
    + split; [exact Hq|]. left. split; [assumption|].
      split; [reflexivity|]. simpl. rewrite <- app_assoc. reflexivity.
  - assert (Hp : processing (self w) = true).
    { apply (good_flag _ _ _ H). rewrite E. discriminate. }
    rewrite (step_execute_busy _ Hp), step_resume by exact E.
    unfold loop_head.
    cbn [set_queue set_submitted with_self self queue]. rewrite Hq.
    cbn [app]. unfold task_begin.
    cbn [set_queue set_submitted with_self self now lastCallTime
         rateLimit]. rewrite Hr.
    destruct (Z.ltb_spec (now w - lastCallTime (self w)) rl).
    + split; [reflexivity|]. right. split; [assumption|].
      split; [|reflexivity]. simpl. do 2 f_equal. lia.
    + split; [reflexivity|]. left. split; [assumption|].
      split; [reflexivity|]. simpl. rewrite <- app_assoc. reflexivity.
Qed.

Lemma awaited_jobs_never_queue_witness :
  let w := run [Execute; Elapse 300; Settle 0 (Fulfilled 1)] (init 2000 5000) in
  settled_ids (trace w) = seq 0 (submitted w) /\
  queue (self (run [Execute; Resume 0] w)) = [] /\
  (loops w = [] \/ loops w = [AwaitTask]).
Proof.
  assert (S : settled_ids (trace (run [Execute; Elapse 300;
                Settle 0 (Fulfilled 1)] (init 2000 5000)))
              = seq 0 (submitted (run [Execute; Elapse 300;
                Settle 0 (Fulfilled 1)] (init 2000 5000))))
    by (vm_compute; reflexivity).
  destruct (awaited_jobs_never_queue 2000 5000
    [Execute; Elapse 300; Settle 0 (Fulfilled 1)] S) as [_ [L [Q _]]].
  cbv zeta. split; [exact S|]. split; [exact Q | exact L].
Defined.

(** *** The chat routes and the agent's routing *)

(** An error whose message is a string gets exactly one answer from the
    chat routes: 429 when the message contains 429, also when it contains 401
    as well; otherwise 401 when it contains 401; otherwise 500.  The body is
    one of three fixed texts, so nothing of the error reaches the client.  A
    thrown null or undefined makes the handler itself throw, and no response
    is sent. *)
Theorem chat_errors_map_to_status
    (answer401 : bool) (ident : nat) (text : string) :
  let has n := exists pre post, text = (pre ++ n ++ post)%string in
  let reply := chat_error_response answer401 (Value ident (MsgString text)) in
  (has "429"%string ->
   reply = Normal (Json 429 "Rate limit exceeded. Please try again later.")) /\
  (~ has "429"%string -> has "401"%string ->
   reply = Normal
             (Json 401 "Authentication failed. Please check your API key.")) /\
  (~ has "429"%string -> ~ has "401"%string ->
   reply = Normal (Json 500 "Internal server error")) /\
  chat_error_response answer401 Nullish = Abrupt EngineTypeError.
Proof.
  cbv zeta. unfold chat_error_response.
  cbn [is_rate_limited message_test].
  destruct (includes "429" text) eqn:E429;
    destruct (includes "401" text) eqn:E401;
    repeat split; try reflexivity; intros H1; try intros H2;
    try reflexivity;
    try (exfalso; apply H1; apply includes_split; assumption);
    try (apply includes_split in H1; congruence);
    try (apply includes_split in H2; congruence);
    try (exfalso; apply H2; apply includes_split; assumption).
Qed.

Lemma chat_errors_map_to_status_witness :
  (exists pre post,
     "401 after 429 Too Many Requests"%string
     = (pre ++ "429" ++ post)%string) /\
  chat_error_response false
    (Value 0 (MsgString "401 after 429 Too Many Requests"))
  = Normal (Json 429 "Rate limit exceeded. Please try again later.").
Proof.
  assert (P : exists pre post,
            "401 after 429 Too Many Requests"%string
            = (pre ++ "429" ++ post)%string)
    by (exists "401 after "%string, " Too Many Requests"%string; reflexivity).
  destruct (chat_errors_map_to_status false 0
              "401 after 429 Too Many Requests") as [R _].
  split; [exact P | exact (R P)].
Defined.

(** After the agent node has added the model's reply to the state, routing
    never throws and depends on that reply alone: to the tools when the reply
    carries at least one tool call, to the end when it carries none or an
    empty list, whatever the earlier messages were.  On a state without
    messages [shouldContinue] throws. *)
Theorem routing_follows_the_latest_reply
    (earlier : list base_message) (reply : base_message) :
  shouldContinue (reducer earlier [reply])
  = Normal (match tool_calls reply with
            | Some (_ :: _) => ToTools
            | _ => ToEnd
            end) /\
  shouldContinue [] = Abrupt EngineTypeError.
Proof.
  split; [|reflexivity].
  unfold shouldContinue, reducer.
  assert (L : nth_error (earlier ++ [reply])
                        (List.length (earlier ++ [reply]) - 1)
              = Some reply).
  { rewrite length_app. simpl.
    replace (List.length earlier + 1 - 1)%nat with (List.length earlier)
      by lia.
    rewrite nth_error_app2 by lia. rewrite Nat.sub_diag. reflexivity. }
  rewrite L. destruct (tool_calls reply) as [[|c cs]|]; reflexivity.
Qed.
